(** * wealth-of-cities: the equilibrium system, its unknown vector and its solver

    A shallow embedding of [src/model.py] (the symbolic equations),
    [src/solvers.py] (initial guess, cached numeric functions, residual,
    Jacobian and [solve]), [src/sandbox.py] (the stand-alone residual) and
    [src/physical_distance.py] (the distance matrices).

    Conventions.
    - A numpy array of floats is a [list R]; a two-dimensional array is a
      list of rows.  Binary64 rounding and overflow are not modelled: an
      arithmetic operation either has a finite real result or meets one of
      the floating-point conditions of [exn].  numpy goes on with an
      infinity or a NaN where the embedding stops, so the embedding speaks
      for the code where every operation has a finite value, and where it
      stops it says which condition the code meets first.
    - A Python [int] is a [Z]; slice bounds follow Python's rules for
      negative and out-of-range bounds.
    - A sympy expression is a tree of type [expr], spelled the way the
      source's operators build it. *)

From Stdlib Require Import ZArith Reals Lra Lia String.
From stdpp Require Import base tactics option list.

#[local] Open Scope Z_scope.

(** ** Python slices *)

Module Py.

(** A slice bound [i] against a sequence of length [len]: a negative bound
    counts from the end, and the outcome is clipped to [0, len]. *)
Definition bound (len i : Z) : Z :=
  if i <? 0 then Z.max 0 (i + len) else Z.min i len.

(** [l[lo:hi]], either bound possibly omitted. *)
Definition slice {A} (lo hi : option Z) (l : list A) : list A :=
  let len := Z.of_nat (length l) in
  let a := from_option (bound len) 0 lo in
  let b := from_option (bound len) len hi in
  take (Z.to_nat (b - a)) (drop (Z.to_nat a) l).

(** [np.repeat(x, n)]; numpy rejects a negative count. *)
Definition repeat {A} (x : A) (n : Z) : option (list A) :=
  if n <? 0 then None else Some (replicate (Z.to_nat n) x).

End Py.

(** ** Outcomes of numeric code *)

(** What can go wrong where the source computes: the two floating-point
    conditions numpy flags (a non-zero number divided by zero, which yields an
    infinity, and an operation without a real value, which yields a NaN) and
    the two Python exceptions of the array operations used. *)
Inductive exn : Set :=
  | DivideByZero
  | InvalidValue
  | IndexError
  | ValueError.

Inductive outcome (A : Type) : Type :=
  | Fin (a : A)
  | Fault (e : exn).
Arguments Fin {A} a.
Arguments Fault {A} e.

#[global] Instance outcome_ret : MRet outcome := @Fin.
#[global] Instance outcome_bind : MBind outcome := fun A B f m =>
  match m with Fin a => f a | Fault e => Fault e end.
#[global] Instance outcome_fmap : FMap outcome := fun A B f m =>
  match m with Fin a => Fin (f a) | Fault e => Fault e end.

(** Run a list of computations from left to right, up to the first fault. *)
Fixpoint sequence {A} (ms : list (outcome A)) : outcome (list A) :=
  match ms with
  | [] => Fin []
  | m :: ms => a ← m; l ← sequence ms; mret (a :: l)
  end.

Definition of_lookup {A} (o : option A) : outcome A :=
  match o with Some a => Fin a | None => Fault IndexError end.

Module Np.
#[local] Open Scope R_scope.

(** [x / y] on floats. *)
Definition divide (x y : R) : outcome R :=
  if Req_dec_T y 0 then
    if Req_dec_T x 0 then Fault InvalidValue else Fault DivideByZero
  else Fin (x / y).

(** [x ** y] on floats: a positive base takes every exponent, zero takes
    the non-negative ones, a negative base the whole numbers. *)
Definition power (x y : R) : outcome R :=
  if Rlt_dec 0 x then Fin (Rpower x y)
  else if Req_dec_T x 0 then
    if Rlt_dec 0 y then Fin 0
    else if Req_dec_T y 0 then Fin 1 else Fault DivideByZero
  else if Req_dec_T (IZR (Int_part y)) y then Fin (powerRZ x (Int_part y))
  else Fault InvalidValue.

(** [a.max()] of the flattened array; an empty array has no maximum. *)
Definition max (a : list R) : outcome R :=
  match a with
  | [] => Fault ValueError
  | x :: a => Fin (foldr Rmax x a)
  end.

(** [np.ones(1.0)]: the one-element array of ones. *)
Definition ones1 : list R := [1].

End Np.

(** ** The symbolic equations ([src/model.py]) *)

(** The symbols of the registry and the operators the equations use. *)
Inductive expr : Set :=
  | Int (z : Z)                     (* an integer literal *)
  | f | phi                         (* [sym.var('f, phi')] *)
  | elasticity_substitution (j : nat)        (* [theta[j]] *)
  | economic_distance (h j : nat)            (* [delta[h, j]] *)
  | labor_supply (h : nat)                   (* [S[h]] *)
  | nominal_gdp (h : nat)                    (* [Y[h]] *)
  | price_level (h : nat)                    (* [P[h]] *)
  | nominal_wage (h : nat)                   (* [W[h]] *)
  | number_firms (h : nat)                   (* [M[h]] *)
  | Add (a b : expr)
  | Sub (a b : expr)
  | Mul (a b : expr)
  | Div (a b : expr)
  | Pow (a b : expr)
  | Neg (a : expr).

Declare Scope expr_scope.
Delimit Scope expr_scope with E.
Bind Scope expr_scope with expr.
Infix "+" := Add : expr_scope.
Infix "-" := Sub : expr_scope.
Infix "*" := Mul : expr_scope.
Infix "/" := Div : expr_scope.
Infix "**" := Pow (at level 30, right associativity) : expr_scope.
Notation "- a" := (Neg a) : expr_scope.

(** Python's [sum]: it starts from the integer 0 and adds from the left. *)
Definition py_sum (terms : list expr) : expr := foldl Add (Int 0) terms.

(** [range(n)] *)
Definition range (n : nat) : list nat := seq 0 n.

Section Model.
(** The module constant [num_cities] (100 in the source). *)
Variable num_cities : nat.

#[local] Open Scope expr_scope.

Definition labor_productivity (h j : nat) : expr :=
  phi / economic_distance h j.

Definition labor_demand (quantity : expr) (h j : nat) : expr :=
  (quantity / labor_productivity h j) + f.

Definition cost (quantity : expr) (h j : nat) : expr :=
  labor_demand quantity h j * nominal_wage h.

Definition marginal_costs (h j : nat) : expr :=
  nominal_wage h / labor_productivity h j.

Definition mark_up (j : nat) : expr :=
  elasticity_substitution j / (elasticity_substitution j - Int 1).

Definition optimal_price (h j : nat) : expr :=
  mark_up j * marginal_costs h j.

Definition real_gdp (i : nat) : expr :=
  nominal_gdp i / price_level i.

Definition relative_price (price : expr) (j : nat) : expr :=
  price / price_level j.

Definition quantity_demand (price : expr) (j : nat) : expr :=
  relative_price price j ** (- elasticity_substitution j) * real_gdp j.

Definition resource_constraint (h : nat) : expr :=
  nominal_gdp h - labor_supply h * nominal_wage h.

Definition revenue (price quantity : expr) : expr :=
  price * quantity.

Definition total_cost (h : nat) : expr :=
  py_sum (map (fun j =>
    let p_star := optimal_price h j in
    let q_star := quantity_demand p_star j in
    cost q_star h j) (range num_cities)).

Definition total_exports (h : nat) : expr :=
  py_sum (map (fun j =>
    let p_star := optimal_price h j in
    let q_star := quantity_demand p_star j in
    number_firms h * revenue p_star q_star) (range num_cities)).

Definition total_imports (h : nat) : expr :=
  py_sum (map (fun j =>
    let p_star := optimal_price j h in
    let q_star := quantity_demand p_star h in
    number_firms j * revenue p_star q_star) (range num_cities)).

Definition total_labor_demand (h : nat) : expr :=
  py_sum (map (fun j =>
    let p_star := optimal_price h j in
    let q_star := quantity_demand p_star j in
    labor_demand q_star h j) (range num_cities)).

Definition total_revenue (h : nat) : expr :=
  py_sum (map (fun j =>
    let p_star := optimal_price h j in
    let q_star := quantity_demand p_star j in
    revenue p_star q_star) (range num_cities)).

Definition total_profits (h : nat) : expr :=
  total_revenue h - total_cost h.

Definition goods_market_clearing (h : nat) : expr :=
  total_exports h - total_imports h.

Definition labor_market_clearing (h : nat) : expr :=
  labor_supply h - total_labor_demand h.

End Model.

(** ** Numeric evaluation of the equations *)

(** The arrays and scalars a compiled function is called with. *)
Record env : Type := Env {
  v_f : R;
  v_phi : R;
  v_theta : list R;
  v_delta : list (list R);
  v_S : list R;
  v_Y : list R;
  v_P : list R;
  v_W : list R;
  v_M : list R
}.

(** The value of an expression: operands from left to right, and the
    evaluation ends at the first operation without a finite value.  The
    tree is evaluated as the source spells it; sympy may reorder it before
    the numeric function is built, which does not change a finite value. *)
Fixpoint eval (v : env) (e : expr) : outcome R :=
  match e with
  | Int z => Fin (IZR z)
  | f => Fin (v_f v)
  | phi => Fin (v_phi v)
  | elasticity_substitution j => of_lookup (v_theta v !! j)
  | economic_distance h j => row ← of_lookup (v_delta v !! h); of_lookup (row !! j)
  | labor_supply h => of_lookup (v_S v !! h)
  | nominal_gdp h => of_lookup (v_Y v !! h)
  | price_level h => of_lookup (v_P v !! h)
  | nominal_wage h => of_lookup (v_W v !! h)
  | number_firms h => of_lookup (v_M v !! h)
  | Add a b => x ← eval v a; y ← eval v b; Fin (x + y)%R
  | Sub a b => x ← eval v a; y ← eval v b; Fin (x - y)%R
  | Mul a b => x ← eval v a; y ← eval v b; Fin (x * y)%R
  | Div a b => x ← eval v a; y ← eval v b; Np.divide x y
  | Pow a b => x ← eval v a; y ← eval v b; Np.power x y
  | Neg a => x ← eval v a; Fin (- x)%R
  end.

(** Modelled from the spec: the function that collects the residual
    equations into one system is not in [src/] (the solver reads it as
    [model._symbolic_system]).  Section 4.1 of the spec: a list of 3N scalar
    expressions, for every city [h] the goods-market clearing, the
    labor-market clearing and the resource constraint. *)
Definition symbolic_system (num_cities : nat) : list expr :=
  map (goods_market_clearing num_cities) (range num_cities)
  ++ map (labor_market_clearing num_cities) (range num_cities)
  ++ map resource_constraint (range num_cities).

(** ** The solver ([src/solvers.py]) *)

(** The attributes of [scipy.optimize.OptimizeResult] the docstring of
    [solve] names. *)
Record OptimizeResult : Type := {
  x : list R;
  success : bool;
  message : string
}.

(** Which of the two numeric functions a call of [sym.lambdify] built. *)
Inductive target : Set := Jacobian | System.

#[global] Instance target_eq_dec : EqDecision target.
Proof. solve_decision. Defined.

Module Solvers.
Section Solvers.
(** The parameter dictionary [model.params]. *)
Variable params : Type.

(** A function built by [sym.lambdify], called as
    [fn(P, Y, W, M, population, **params)]; it returns a two-dimensional
    array. *)
Definition numeric_fn : Type :=
  list R -> list R -> list R -> list R -> list R -> params ->
  outcome (list (list R)).

(** A function object: Python compares objects by identity, so each one
    carries the serial number of the [lambdify] call that made it. *)
Record fn_obj : Type := { oid : nat; call : numeric_fn }.

(** [models.Model], as far as the solver reads it. *)
Record Model : Type := {
  N : Z;
  model_params : params;
  physical_distances : list (list R);
  population : list R;
  _symbolic_args : list expr;
  _symbolic_jacobian : list (list expr);
  _symbolic_system : list (list expr)
}.

(** Modelled from the spec: the class [models.SingleCityModel] is not in
    [src/]; its constructor receives the parameters, the distances and the
    population, and [guess] reads [population] and [params] back from it. *)
Record SingleCityModel : Type := {
  city_params : params;
  city_physical_distances : list (list R);
  city_population : list R
}.

(** [sym.lambdify(args, expr, modules)] of sympy. *)
Variable lambdify : list expr -> list (list expr) -> numeric_fn.

(** Modelled from the spec: the closed-form single-city solutions
    [compute_nominal_gdp], [compute_nominal_wage] and [compute_number_firms]
    of [models.SingleCityModel] are not in [src/]; section 4.4 of the spec
    has them depend only on the city's own population and on the fixed
    parameters, which are the arguments [guess] calls them with. *)
Variable compute_nominal_gdp : list R -> list R -> params -> R.
Variable compute_nominal_wage : list R -> list R -> params -> R.
Variable compute_number_firms : list R -> list R -> params -> R.

(** What [np.empty] finds in memory: slot [i] of the [k]-th array. *)
Variable uninitialised : nat -> nat -> R.

(** [scipy.optimize.root(fun, x0, jac, method, **kwargs)]; [jac=False] is
    [None]. *)
Variable kwargs : Type.
Variable root :
  (list R -> outcome (list R)) -> list R ->
  option (list R -> outcome (list (list R))) -> string -> kwargs ->
  OptimizeResult.

(** [np.empty(n)], the [k]-th array allocated. *)
Definition np_empty (k : nat) (n : Z) : outcome (list R) :=
  if n <? 0 then Fault ValueError
  else Fin (map (uninitialised k) (seq 0 (Z.to_nat n))).

(** [IslandsGuess.city] *)
Definition city (model : Model) : SingleCityModel :=
  {| city_params := model_params model;
     city_physical_distances := physical_distances model;
     city_population := population model |}.

(** One round of the loop of [guess]: slot [h] of the three arrays. *)
Definition guess_step (c : SingleCityModel)
    (acc : list R * list R * list R) (h : nat) (population : R) :
    list R * list R * list R :=
  let '(Y0, W0, M0) := acc in
  (<[h := compute_nominal_gdp Np.ones1 [population] (city_params c)]> Y0,
   <[h := compute_nominal_wage Np.ones1 [population] (city_params c)]> W0,
   <[h := compute_number_firms Np.ones1 [population] (city_params c)]> M0).

(** [for h, population in enumerate(populations)], from index [h]. *)
Fixpoint guess_loop (c : SingleCityModel) (h : nat) (populations : list R)
    (acc : list R * list R * list R) : list R * list R * list R :=
  match populations with
  | [] => acc
  | population :: rest => guess_loop c (S h) rest (guess_step c acc h population)
  end.

(** [IslandsGuess.guess] *)
Definition guess (model : Model) : outcome (list R) :=
  P0 ← from_option Fin (Fault ValueError) (Py.repeat 1%R (N model - 1));
  Y0 ← np_empty 0 (N model);
  W0 ← np_empty 1 (N model);
  M0 ← np_empty 2 (N model);
  let '(Y0, W0, M0) :=
    guess_loop (city model) 0
      (Py.slice None (Some (N model)) (city_population (city model)))
      (Y0, W0, M0) in
  Fin (P0 ++ Y0 ++ W0 ++ M0).

(** The state of a [Solver]: its model, the two cache attributes, and the
    calls of [lambdify] it has made so far (latest first). *)
Record Solver : Type := {
  model : Model;
  __numeric_jacobian : option fn_obj;
  __numeric_system : option fn_obj;
  built : list target
}.

(** [Solver.__init__] *)
Definition new_solver (m : Model) : Solver :=
  {| model := m; __numeric_jacobian := None; __numeric_system := None;
     built := [] |}.

(** [Solver._clear_cache] *)
Definition _clear_cache (s : Solver) : Solver :=
  {| model := model s; __numeric_jacobian := None; __numeric_system := None;
     built := built s |}.

(** The property [Solver._numeric_jacobian]: the function and the solver
    after the access. *)
Definition _numeric_jacobian (s : Solver) : fn_obj * Solver :=
  match __numeric_jacobian s with
  | Some fn => (fn, s)
  | None =>
      let fn := {| oid := length (built s);
                   call := lambdify (_symbolic_args (model s))
                                    (_symbolic_jacobian (model s)) |} in
      (fn, {| model := model s; __numeric_jacobian := Some fn;
              __numeric_system := __numeric_system s;
              built := Jacobian :: built s |})
  end.

(** The property [Solver._numeric_system] *)
Definition _numeric_system (s : Solver) : fn_obj * Solver :=
  match __numeric_system s with
  | Some fn => (fn, s)
  | None =>
      let fn := {| oid := length (built s);
                   call := lambdify (_symbolic_args (model s))
                                    (_symbolic_system (model s)) |} in
      (fn, {| model := model s; __numeric_jacobian := __numeric_jacobian s;
              __numeric_system := Some fn;
              built := System :: built s |})
  end.

(** The four blocks [system] and [jacobian] cut out of [X], the price block
    with the numeraire in front. *)
Definition unpack (n : Z) (X : list R) : list R * list R * list R * list R :=
  let P := Np.ones1 ++ Py.slice None (Some (n - 1)) X in
  let Y := Py.slice (Some (n - 1)) (Some (2 * n - 1)) X in
  let W := Py.slice (Some (2 * n - 1)) (Some (3 * n - 1)) X in
  let M := Py.slice (Some (3 * n - 1)) None X in
  (P, Y, W, M).

(** [Solver.system]; [ravel] flattens the rows. *)
Definition system (s : Solver) (X : list R) : outcome (list R) * Solver :=
  let '(P, Y, W, M) := unpack (N (model s)) X in
  let '(fn, s') := _numeric_system s in
  let residual :=
    call fn P Y W M (population (model s)) (model_params (model s)) in
  (concat (A:=R) <$> residual, s').

(** [Solver.jacobian] *)
Definition jacobian (s : Solver) (X : list R) :
    outcome (list (list R)) * Solver :=
  let '(P, Y, W, M) := unpack (N (model s)) X in
  let '(fn, s') := _numeric_jacobian s in
  let jac :=
    call fn P Y W M (population (model s)) (model_params (model s)) in
  (jac, s').

(** [Solver.solve]: the initial guess is computed, then everything is handed
    to the root finder, whose result is returned as it is.  The callbacks
    are the values [system] and [jacobian] compute from the solver as [solve]
    finds it; the reads of the cache they cause do not change these values
    (see [system_after_read] and [jacobian_after_read]). *)
Definition solve (s : Solver) (method : string) (with_jacobian : bool)
    (kw : kwargs) : outcome OptimizeResult :=
  let jacobian_ :=
    if with_jacobian then Some (fun X => (jacobian s X).1) else None in
  x0 ← guess (model s);
  Fin (root (fun X => (system s X).1) x0 jacobian_ method kw).

(** *** Histories of a solver *)

(** What a caller can do to the cache of a solver: read either property or
    clear the cache. *)
Inductive access : Set := GetJacobian | GetSystem | ClearCache.

#[global] Instance access_eq_dec : EqDecision access.
Proof. solve_decision. Defined.

Definition step (s : Solver) (a : access) : Solver :=
  match a with
  | GetJacobian => (_numeric_jacobian s).2
  | GetSystem => (_numeric_system s).2
  | ClearCache => _clear_cache s
  end.

(** The solver after a sequence of accesses. *)
Definition run (s : Solver) (history : list access) : Solver :=
  foldl step s history.

(** How often [lambdify] has built the function [t] for this solver. *)
Definition builds (t : target) (s : Solver) : nat :=
  length (filter (t =.) (built s)).

(** How often the history clears the cache. *)
Definition clears (history : list access) : nat :=
  length (filter (ClearCache =.) history).

(** The cache attribute that holds the function [t]. *)
Definition cached (t : target) (s : Solver) : option fn_obj :=
  match t with
  | Jacobian => __numeric_jacobian s
  | System => __numeric_system s
  end.

(** The access that reads the function [t]. *)
Definition get (t : target) (s : Solver) : fn_obj * Solver :=
  match t with
  | Jacobian => _numeric_jacobian s
  | System => _numeric_system s
  end.

(** The function an access reads, if it reads one. *)
Definition reads (a : access) : option target :=
  match a with
  | GetJacobian => Some Jacobian
  | GetSystem => Some System
  | ClearCache => None
  end.

(** 1 while the function [t] is not cached, 0 once it is. *)
Definition vacant (t : target) (s : Solver) : nat :=
  match cached t s with Some _ => 0%nat | None => 1%nat end.

End Solvers.

Arguments N {params} _.
Arguments model_params {params} _.
Arguments physical_distances {params} _.
Arguments population {params} _.
Arguments _symbolic_args {params} _.
Arguments _symbolic_jacobian {params} _.
Arguments _symbolic_system {params} _.
Arguments city_params {params} _.
Arguments city_population {params} _.
Arguments oid {params} _.
Arguments call {params} _.
Arguments model {params} _.
Arguments __numeric_jacobian {params} _.
Arguments __numeric_system {params} _.
Arguments built {params} _.
Arguments city {params} _.
Arguments new_solver {params} _.
Arguments _clear_cache {params} _.
Arguments cached {params} _ _.
Arguments builds {params} _ _.
Arguments vacant {params} _ _.

End Solvers.

(** ** Construction of a model *)

Module Models.
Section Models.
Context {params kwargs : Type}.

(** The entry [theta] of the parameter dictionary: the elasticity of
    substitution of every city. *)
Variable elasticities : params -> list R.

Variable lambdify : list expr -> list (list expr) -> Solvers.numeric_fn params.
Variable compute_nominal_gdp compute_nominal_wage compute_number_firms :
  list R -> list R -> params -> R.
Variable uninitialised : nat -> nat -> R.
Variable root :
  (list R -> outcome (list R)) -> list R ->
  option (list R -> outcome (list (list R))) -> string -> kwargs ->
  OptimizeResult.

(** The outcome of a construction: the object, or the description of the
    precondition that is violated. *)
Inductive construction (A : Type) : Type :=
  | Constructed (a : A)
  | MalformedParameter (description : string).

Definition elasticity_is_one (theta_j : R) : bool :=
  if Req_dec_T theta_j 1 then true else false.

(** Modelled from the spec: the constructor of [models.Model] is not in
    [src/]; the solver receives a finished model.  Section 7 of the spec: an
    elasticity of substitution equal to 1 for any city leaves the markup
    undefined; this is a malformed parameter, detected and reported with a
    description of the violated precondition when the model is constructed,
    before the numeric system is. *)
Definition new_model (fields : Solvers.Model params) :
    construction (Solvers.Model params) :=
  if existsb elasticity_is_one (elasticities (Solvers.model_params fields))
  then MalformedParameter (Solvers.Model params)
         "elasticity of substitution equal to 1: the markup is undefined"
  else Constructed (Solvers.Model params) fields.

(** Modelled from the spec: the driver that constructs the model, makes a
    solver for it and solves (section 2 of the spec, control flow); a
    construction error ends it. *)
Definition construct_and_solve (fields : Solvers.Model params)
    (method : string) (with_jacobian : bool) (kw : kwargs) :
    construction (outcome OptimizeResult) :=
  match new_model fields with
  | Constructed _ model =>
      Constructed _
        (Solvers.solve params lambdify compute_nominal_gdp
           compute_nominal_wage compute_number_firms uninitialised kwargs
           root (Solvers.new_solver model) method with_jacobian kw)
  | MalformedParameter _ description => MalformedParameter _ description
  end.

End Models.

Arguments Constructed {A} a.
Arguments MalformedParameter {A} description.

End Models.

(** ** The stand-alone residual ([src/sandbox.py]) *)

Module Sandbox.
Section Sandbox.
(** [model.num_cities] *)
Variable num_cities : Z.

(** [model.numeric_system] and [model.numeric_jacobian], called as
    [fn(P, Y, W, M, f, beta, phi, tau, theta)]; neither is in [src/]. *)
Variable numeric_system numeric_jacobian :
  list R -> list R -> list R -> list R -> R -> R -> R -> R -> list R ->
  outcome (list (list R)).

(** [equilibrium_system]; the four slices are those of [Solver.system]. *)
Definition equilibrium_system (X : list R) (f beta phi tau : R)
    (theta : list R) : outcome (list R) :=
  let '(P, Y, W, M) := Solvers.unpack num_cities X in
  concat (A:=R) <$> numeric_system P Y W M f beta phi tau theta.

(** [equilibrium_jacobian] *)
Definition equilibrium_jacobian (X : list R) (f beta phi tau : R)
    (theta : list R) : outcome (list (list R)) :=
  let '(P, Y, W, M) := Solvers.unpack num_cities X in
  numeric_jacobian P Y W M f beta phi tau theta.

End Sandbox.
End Sandbox.

(** ** The distance matrices ([src/physical_distance.py]) *)

Section PhysicalDistance.
(** A row of the coordinate table: latitude and longitude. *)
Definition coords : Type := (R * R)%type.

(** [great_circle(a, b).kilometers] and [vincenty(a, b).kilometers] of
    geopy. *)
Variable great_circle vincenty : coords -> coords -> R.

(** The matrix the two loops fill: entry [i, j] is the distance from row [i]
    to row [j] of the table.  The rows of [data] are taken in index order;
    every entry of the zero matrix is overwritten. *)
Definition distance_matrix (metric : coords -> coords -> R)
    (data : list coords) : list (list R) :=
  map (fun tmp_coords_1 =>
         map (fun tmp_coords_2 => metric tmp_coords_1 tmp_coords_2) data)
      data.

(** [compute_physical_distance] *)
Definition compute_physical_distance (data : list coords) :
    list (list R) * list (list R) :=
  (distance_matrix great_circle data, distance_matrix vincenty data).

End PhysicalDistance.

(** [a / a.max()] for a two-dimensional array [a]. *)
Definition normed (a : list (list R)) : outcome (list (list R)) :=
  m ← Np.max (concat a);
  sequence (map (fun row => sequence (map (fun d => Np.divide d m) row)) a).

(** [normed_great_circle_distance] and [normed_vincenty_distance] *)
Definition normed_great_circle_distance
    (great_circle vincenty : coords -> coords -> R) (geo_coords : list coords) :
    outcome (list (list R)) :=
  normed (compute_physical_distance great_circle vincenty geo_coords).1.

Definition normed_vincenty_distance
    (great_circle vincenty : coords -> coords -> R) (geo_coords : list coords) :
    outcome (list (list R)) :=
  normed (compute_physical_distance great_circle vincenty geo_coords).2.

(** ** Concrete instances *)

Module Toy.
Import Solvers.

(** Single-city closed forms to run [guess] on: the city's population, the
    price, and twice the population. *)
Definition gdp {params} (P L : list R) (_ : params) : R := hd 0%R L.
Definition wage {params} (P L : list R) (_ : params) : R := hd 0%R P.
Definition firms {params} (P L : list R) (_ : params) : R := (2 * hd 0 L)%R.

(** Memory that happens to hold zeros. *)
Definition zeros (k i : nat) : R := 0%R.

(** Two cities with populations 3 and 5. *)
Definition two_cities : Model unit :=
  {| N := 2; model_params := tt; physical_distances := [];
     population := [3%R; 5%R]; _symbolic_args := [];
     _symbolic_jacobian := []; _symbolic_system := [] |}.

(** A compiler that builds the function returning the empty array. *)
Definition no_equations (args : list expr) (e : list (list expr)) :
    numeric_fn unit :=
  fun P Y W M population _ => Fin [].

(** A parameter dictionary with the symbols of [src/model.py]. *)
Record parameters : Type := {
  p_f : R;
  p_phi : R;
  p_theta : list R;
  p_delta : list (list R)
}.

(** A compiler that evaluates the expressions entry by entry, the labor
    supply read from the population array. *)
Definition compile (args : list expr) (e : list (list expr)) :
    numeric_fn parameters :=
  fun P Y W M population prm =>
    let v := {| v_f := p_f prm; v_phi := p_phi prm; v_theta := p_theta prm;
                v_delta := p_delta prm; v_S := population;
                v_Y := Y; v_P := P; v_W := W; v_M := M |} in
    sequence (map (fun row => sequence (map (eval v) row)) e).

(** One city with elasticity [theta], its system the three equations of
    [symbolic_system] as a column. *)
Definition one_city (theta : R) : Model parameters :=
  {| N := 1;
     model_params :=
       {| p_f := 1; p_phi := 1; p_theta := [theta]; p_delta := [[1%R]] |};
     physical_distances := [[0%R]];
     population := [1%R]; _symbolic_args := [];
     _symbolic_jacobian := [];
     _symbolic_system := map (fun e => [e]) (symbolic_system 1) |}.

(** A root finder that looks at the residual of the starting point and stops
    there; its keyword argument is the tolerance. *)
Definition within (tol : R) (r : list R) : bool :=
  forallb (fun ri => if Rle_dec (Rabs ri) tol then true else false) r.

Definition root (fn : list R -> outcome (list R)) (x0 : list R)
    (jac : option (list R -> outcome (list (list R)))) (method : string)
    (tol : R) : OptimizeResult :=
  match fn x0 with
  | Fin r =>
      if within tol r
      then {| x := x0; success := true; message := "The solution converged." |}
      else {| x := x0; success := false;
              message := "The iteration is not making good progress." |}
  | Fault _ =>
      {| x := x0; success := false; message := "The residual is not finite." |}
  end.

End Toy.

(** An evaluation point with one city.  *)
Definition one_city_point (theta w phi delta : R) : env :=
  {| v_f := 1; v_phi := phi; v_theta := [theta]; v_delta := [[delta]];
     v_S := [1%R]; v_Y := [1%R]; v_P := [1%R]; v_W := [w]; v_M := [1%R] |}.

(** ** Vocabulary of the statements about distances *)

(** Entry [i, j] of a two-dimensional array. *)
Definition entry (a : list (list R)) (i j : nat) : option R :=
  row ← a !! i; row !! j.

(** What the distance functions of geopy are taken to satisfy: no distance
    is negative, the distance does not depend on the direction, and a point
    is at distance 0 from itself. *)
Definition is_distance (metric : coords -> coords -> R) : Prop :=
  (forall a b, (0 <= metric a b)%R)
  /\ (forall a b, metric a b = metric b a)
  /\ (forall a, metric a a = 0%R).

(** The taxicab distance on coordinate pairs, a distance to run the matrices
    on. *)
Definition taxicab (a b : coords) : R :=
  (Rabs (a.1 - b.1) + Rabs (a.2 - b.2))%R.

(** ** Vocabulary of the statements about the cache *)

(** The cache of a solver is coherent when whatever it holds is what
    [lambdify] builds from the model's own expressions. *)
Definition coherent {params : Type}
    (lambdify : list expr -> list (list expr) -> Solvers.numeric_fn params)
    (s : Solvers.Solver params) : Prop :=
  (forall fn, Solvers.__numeric_system s = Some fn ->
     Solvers.call fn
     = lambdify (Solvers._symbolic_args (Solvers.model s))
                (Solvers._symbolic_system (Solvers.model s)))
  /\ (forall fn, Solvers.__numeric_jacobian s = Some fn ->
        Solvers.call fn
        = lambdify (Solvers._symbolic_args (Solvers.model s))
                   (Solvers._symbolic_jacobian (Solvers.model s))).

(** Two cities of which only the first has a population entry. *)
Definition lone_population : Solvers.Model unit :=
  {| Solvers.N := 2; Solvers.model_params := tt;
     Solvers.physical_distances := [];
     Solvers.population := [3%R]; Solvers._symbolic_args := [];
     Solvers._symbolic_jacobian := []; Solvers._symbolic_system := [] |}.

(** A model without cities. *)
Definition no_cities : Solvers.Model unit :=
  {| Solvers.N := 0; Solvers.model_params := tt;
     Solvers.physical_distances := [];
     Solvers.population := []; Solvers._symbolic_args := [];
     Solvers._symbolic_jacobian := []; Solvers._symbolic_system := [] |}.

(** ** Vocabulary of the statements about the equations *)

(** Every city index an expression subscripts a symbol with is below [n]. *)
Fixpoint indices_below (n : nat) (e : expr) : bool :=
  match e with
  | Int _ | f | phi => true
  | elasticity_substitution j | labor_supply j | nominal_gdp j
  | price_level j | nominal_wage j | number_firms j => (j <? n)%nat
  | economic_distance h j => (h <? n)%nat && (j <? n)%nat
  | Add a b | Sub a b | Mul a b | Div a b | Pow a b =>
      indices_below n a && indices_below n b
  | Neg a => indices_below n a
  end.

(** The arrays of an evaluation point have at least [n] entries each, the
    distance matrix at least [n] rows of at least [n] entries. *)
Definition sized (n : nat) (v : env) : Prop :=
  (n <= length (v_theta v))%nat /\ (n <= length (v_S v))%nat
  /\ (n <= length (v_Y v))%nat /\ (n <= length (v_P v))%nat
  /\ (n <= length (v_W v))%nat /\ (n <= length (v_M v))%nat
  /\ (n <= length (v_delta v))%nat
  /\ Forall (fun row => (n <= length row)%nat) (v_delta v).

(** The sum of an array of reals. *)
Definition Rsum (l : list R) : R := foldr Rplus 0%R l.

(** The term the loops of [total_exports] and [total_imports] add up: the
    revenue the firms of city [h] make on good [j]. *)
Definition trade (h j : nat) : expr :=
  let p_star := optimal_price h j in
  let q_star := quantity_demand p_star j in
  (number_firms h * revenue p_star q_star)%E.

(** An evaluation with a finite value, and that value. *)
Definition finite (o : outcome R) : Prop := exists r, o = Fin r.

Definition value (o : outcome R) : R :=
  match o with Fin r => r | Fault _ => 0%R end.

(** An evaluation point with two cities at distance 1 from each other and
    from themselves, elasticity 2 and all other entries 1. *)
Definition two_city_point : env :=
  {| v_f := 1; v_phi := 1; v_theta := [2%R; 2%R];
     v_delta := [[1%R; 1%R]; [1%R; 1%R]];
     v_S := [1%R; 1%R]; v_Y := [1%R; 1%R]; v_P := [1%R; 1%R];
     v_W := [1%R; 1%R]; v_M := [1%R; 1%R] |}.

(** One city with elasticity 2, price level [P] and nominal GDP [Y]. *)
Definition priced_point (P Y : R) : env :=
  {| v_f := 1; v_phi := 1; v_theta := [2%R]; v_delta := [[1%R]];
     v_S := [1%R]; v_Y := [Y]; v_P := [P]; v_W := [1%R]; v_M := [1%R] |}.

(** ** The loops of [compute_physical_distance] *)

(** [np.zeros((n, m))] *)
Definition np_zeros (n m : nat) : list (list R) :=
  replicate n (replicate m 0%R).

(** [a[i, j] = x]; an index outside the array raises IndexError. *)
Definition set_entry (a : list (list R)) (i j : nat) (x : R) :
    outcome (list (list R)) :=
  match a !! i with
  | Some row =>
      if decide (j < length row)%nat
      then Fin (<[i := <[j := x]> row]> a)
      else Fault IndexError
  | None => Fault IndexError
  end.

(** [for i, a in enumerate(l)], counting from [i], with the state [s]
    threaded through the rounds. *)
Fixpoint for_each {A St : Type} (body : St -> nat -> A -> outcome St)
    (i : nat) (l : list A) (s : St) : outcome St :=
  match l with
  | [] => Fin s
  | a :: l => s' ← body s i a; for_each body (S i) l s'
  end.

(** [compute_physical_distance] the way the source computes it: two zero
    matrices, filled entry by entry in two nested loops over the rows of the
    table. *)
Definition compute_physical_distance_loops
    (great_circle vincenty : coords -> coords -> R) (data : list coords) :
    outcome (list (list R) * list (list R)) :=
  let N := length data in
  let great_circle_distance := np_zeros N N in
  let vincenty_distance := np_zeros N N in
  for_each (fun matrices i tmp_coords_1 =>
    for_each (fun matrices j tmp_coords_2 =>
      let '(great_circle_distance, vincenty_distance) := matrices in
      great_circle_distance ←
        set_entry great_circle_distance i j
          (great_circle tmp_coords_1 tmp_coords_2);
      vincenty_distance ←
        set_entry vincenty_distance i j (vincenty tmp_coords_1 tmp_coords_2);
      Fin (great_circle_distance, vincenty_distance))
      0 data matrices)
    0 data (great_circle_distance, vincenty_distance).

(** * Properties *)

(** ** Slices with non-negative bounds *)

Module PyFacts.
Import Py.

Lemma bound_nonneg len i : 0 <= len -> 0 <= i -> bound len i = Z.min i len.
Proof. intros _ Hi. unfold bound. destruct (Z.ltb_spec i 0); lia. Qed.

Lemma slice_prefix {A} (l : list A) n :
  0 <= n -> slice None (Some n) l = take (Z.to_nat n) l.
Proof.
  intros Hn. unfold slice. cbn [from_option].
  rewrite bound_nonneg by lia. rewrite Z.sub_0_r. change (Z.to_nat 0) with 0%nat.
  rewrite drop_0. destruct (Z.min_spec n (Z.of_nat (length l))) as [[H ->]|[H ->]].
  - reflexivity.
  - rewrite Nat2Z.id. rewrite !take_ge; auto with lia.
Qed.

Lemma slice_middle {A} (l : list A) a b :
  0 <= a <= b ->
  slice (Some a) (Some b) l = take (Z.to_nat b - Z.to_nat a) (drop (Z.to_nat a) l).
Proof.
  intros Hab. unfold slice. cbn [from_option].
  rewrite !bound_nonneg by lia.
  set (len := Z.of_nat (length l)).
  assert (Hlen : length l = Z.to_nat len) by (unfold len; lia).
  destruct (Z.le_gt_cases len a) as [Hla|Hla].
  - rewrite !(drop_ge l) by lia. by rewrite !take_nil.
  - rewrite (Z.min_l a len) by lia.
    destruct (Z.le_gt_cases len b) as [Hlb|Hlb].
    + rewrite (Z.min_r b len) by lia.
      rewrite !take_ge; [done| |]; rewrite length_drop; lia.
    + rewrite (Z.min_l b len) by lia. f_equal. lia.
Qed.

Lemma slice_suffix {A} (l : list A) a :
  0 <= a -> slice (Some a) None l = drop (Z.to_nat a) l.
Proof.
  intros Ha. unfold slice. cbn [from_option].
  rewrite bound_nonneg by lia.
  rewrite take_ge by (rewrite length_drop; lia).
  destruct (Z.le_gt_cases (Z.of_nat (length l)) a) as [Hla|Hla].
  - by rewrite !drop_ge by lia.
  - by rewrite Z.min_l by lia.
Qed.

(** Bounds below zero and beyond the end, as Python treats them. *)
Example slice_negative_bound : slice None (Some (-1)) [1; 2; 3] = [1; 2].
Proof. reflexivity. Qed.

Example slice_beyond_end : slice (Some 2) (Some 7) [1; 2; 3] = [3].
Proof. reflexivity. Qed.

Example slice_crossed_bounds : slice (Some 2) (Some 1) [1; 2; 3] = [].
Proof. reflexivity. Qed.

Example repeat_negative : repeat 1 (-1) = None.
Proof. reflexivity. Qed.

End PyFacts.

Module NpFacts.
Import Np.
#[local] Open Scope R_scope.

Lemma divide_fin x y : y <> 0 -> divide x y = Fin (x / y).
Proof. intros Hy. unfold divide. by destruct (Req_dec_T y 0). Qed.

Lemma power_pos x y : 0 < x -> power x y = Fin (Rpower x y).
Proof. intros Hx. unfold power. by destruct (Rlt_dec 0 x). Qed.


End NpFacts.
(** ** The unknown vector: initial guess and slicing *)

Section GuessFacts.
Import Solvers.
Context {params : Type}.
Variable gdp wage firms : list R -> list R -> params -> R.
Variable junk : nat -> nat -> R.

Abbreviation guess_loop := (guess_loop params gdp wage firms).
Abbreviation guess_step := (guess_step params gdp wage firms).
Abbreviation guess := (guess params gdp wage firms junk).

Lemma np_empty_fin k n :
  0 <= n -> np_empty junk k n = Fin (map (junk k) (seq 0 (Z.to_nat n))).
Proof. intros Hn. unfold np_empty. destruct (Z.ltb_spec n 0); [lia|done]. Qed.

Lemma guess_loop_length c pops : forall h Y0 W0 M0 Y W M,
  guess_loop c h pops (Y0, W0, M0) = (Y, W, M) ->
  length Y = length Y0 /\ length W = length W0 /\ length M = length M0.
Proof.
  induction pops as [|p pops IH]; intros h Y0 W0 M0 Y W M; cbn.
  - by intros [= -> -> ->].
  - intros Hl. apply IH in Hl. by rewrite !length_insert in Hl.
Qed.

(** Rounds from index [h] on leave the slots before [h] alone. *)
Lemma guess_loop_before c pops : forall h Y0 W0 M0 Y W M i,
  guess_loop c h pops (Y0, W0, M0) = (Y, W, M) -> (i < h)%nat ->
  Y !! i = Y0 !! i /\ W !! i = W0 !! i /\ M !! i = M0 !! i.
Proof.
  induction pops as [|p pops IH]; intros h Y0 W0 M0 Y W M i; cbn.
  - by intros [= -> -> ->].
  - intros Hl Hi. eapply IH in Hl as (-> & -> & ->); [|lia].
    by rewrite !list_lookup_insert_ne by lia.
Qed.

(** The round for city [h + k] stores the three closed forms of its own
    population. *)
Lemma guess_loop_at c pops : forall h Y0 W0 M0 Y W M k p,
  guess_loop c h pops (Y0, W0, M0) = (Y, W, M) ->
  pops !! k = Some p ->
  (h + k < length Y0)%nat -> (h + k < length W0)%nat ->
  (h + k < length M0)%nat ->
  Y !! (h + k)%nat = Some (gdp Np.ones1 [p] (city_params c))
  /\ W !! (h + k)%nat = Some (wage Np.ones1 [p] (city_params c))
  /\ M !! (h + k)%nat = Some (firms Np.ones1 [p] (city_params c)).
Proof.
  induction pops as [|q pops IH]; intros h Y0 W0 M0 Y W M k p; [done|].
  cbn [Solvers.guess_loop Solvers.guess_step]. intros Hl Hk HY HW HM.
  destruct k as [|k].
  - injection Hk as ->. rewrite Nat.add_0_r in *.
    eapply guess_loop_before in Hl as (-> & -> & ->); [|constructor].
    by rewrite !list_lookup_insert_eq by done.
  - cbn in Hk. replace (h + S k)%nat with (S h + k)%nat in * by lia.
    eapply IH; eauto; rewrite length_insert; lia.
Qed.

(** The value of [guess] when the model has at least one city. *)
Lemma guess_fin (m : Model params) :
  1 <= N m ->
  exists Y0 W0 M0,
    guess m = Fin (replicate (Z.to_nat (N m - 1)) 1%R ++ Y0 ++ W0 ++ M0)
    /\ guess_loop (city m) 0
         (Py.slice None (Some (N m)) (population m))
         (map (junk 0) (seq 0 (Z.to_nat (N m))),
          map (junk 1) (seq 0 (Z.to_nat (N m))),
          map (junk 2) (seq 0 (Z.to_nat (N m)))) = (Y0, W0, M0).
Proof.
  intros HN. unfold Solvers.guess, Py.repeat.
  destruct (Z.ltb_spec (N m - 1) 0); [lia|].
  rewrite !np_empty_fin by lia. cbn.
  destruct (guess_loop _ _ _ _) as [[Y0 W0] M0] eqn:Hl. by exists Y0, W0, M0.
Qed.

End GuessFacts.

Module UnpackFacts.
Import Solvers PyFacts.

Lemma take_drop_middle {A} (l : list A) (a b : nat) :
  (a <= b)%nat -> take (b - a) (drop a l) ++ drop b l = drop a l.
Proof.
  intros Hab. replace (drop b l) with (drop (b - a) (drop a l)).
  - apply take_drop.
  - rewrite drop_drop. f_equal. lia.
Qed.

(** The four blocks for a model with at least one city. *)
Lemma unpack_blocks n X :
  1 <= n ->
  unpack n X =
    (1%R :: take (Z.to_nat (n - 1)) X,
     take (Z.to_nat (2 * n - 1) - Z.to_nat (n - 1)) (drop (Z.to_nat (n - 1)) X),
     take (Z.to_nat (3 * n - 1) - Z.to_nat (2 * n - 1))
          (drop (Z.to_nat (2 * n - 1)) X),
     drop (Z.to_nat (3 * n - 1)) X).
Proof.
  intros Hn. unfold unpack, Np.ones1.
  rewrite slice_prefix, !slice_middle, slice_suffix by lia. done.
Qed.

Lemma repack n X P Y W M :
  1 <= n -> unpack n X = (P, Y, W, M) -> drop 1 P ++ Y ++ W ++ M = X.
Proof.
  intros Hn. rewrite unpack_blocks by done. intros [= <- <- <- <-].
  cbn [drop]. rewrite drop_0.
  rewrite (take_drop_middle X (Z.to_nat (2 * n - 1)) (Z.to_nat (3 * n - 1))) by lia.
  rewrite (take_drop_middle X (Z.to_nat (n - 1)) (Z.to_nat (2 * n - 1))) by lia.
  apply take_drop.
Qed.

Lemma unpack_lengths n X P Y W M :
  1 <= n -> Z.of_nat (length X) = 4 * n - 1 -> unpack n X = (P, Y, W, M) ->
  Z.of_nat (length P) = n /\ Z.of_nat (length Y) = n
  /\ Z.of_nat (length W) = n /\ Z.of_nat (length M) = n.
Proof.
  intros Hn HX. rewrite unpack_blocks by done. intros [= <- <- <- <-].
  cbn [length]. rewrite !length_take, !length_drop. lia.
Qed.

End UnpackFacts.

Section UnknownVector.
Import Solvers.
Context {params : Type}.
Variable compute_nominal_gdp compute_nominal_wage compute_number_firms :
  list R -> list R -> params -> R.
Variable uninitialised : nat -> nat -> R.

Abbreviation guess_of :=
  (guess params compute_nominal_gdp compute_nominal_wage compute_number_firms
     uninitialised).

(** C1, as amended.  For every model with at least one city the initial
    guess is an array of 4N-1 entries (N-1 prices, then N entries each of
    nominal GDP, nominal wage and number of firms); the four slices of
    [system] and [jacobian] put back in order, the numeraire left out, give
    the unknown vector again, and on a vector of 4N-1 entries each of the
    four blocks handed on has N entries. *)
Theorem unknown_vector_layout (m : Model params) :
  1 <= N m ->
  (exists g, guess_of m = Fin g /\ Z.of_nat (length g) = 4 * N m - 1)
  /\ (forall X P Y W M,
        unpack (N m) X = (P, Y, W, M) ->
        drop 1 P ++ Y ++ W ++ M = X
        /\ (Z.of_nat (length X) = 4 * N m - 1 ->
            Z.of_nat (length P) = N m /\ Z.of_nat (length Y) = N m
            /\ Z.of_nat (length W) = N m /\ Z.of_nat (length M) = N m)).
Proof.
  intros HN. split.
  - destruct (guess_fin compute_nominal_gdp compute_nominal_wage
                compute_number_firms uninitialised m HN)
      as (Y0 & W0 & M0 & -> & Hl).
    eexists; split; [done|].
    apply guess_loop_length in Hl as (HY & HW & HM).
    rewrite !length_app, length_replicate, HY, HW, HM, !length_map, !length_seq.
    lia.
  - intros X P Y W M HX. split.
    + by eapply UnpackFacts.repack.
    + intros HlX. by eapply UnpackFacts.unpack_lengths.
Qed.

(** C6.  For a model with at least one city the initial guess is the price
    block of N-1 ones, then the blocks of nominal GDP, nominal wage and
    number of firms, N entries each; for every city [h] below N that has a
    population entry, the three entries of city [h] are the single-city
    closed forms at price 1, at the population of [h] alone and at the model
    parameters. *)
Theorem islands_guess_blocks (m : Model params) :
  1 <= N m ->
  exists Y0 W0 M0,
    guess_of m = Fin (replicate (Z.to_nat (N m - 1)) 1%R ++ Y0 ++ W0 ++ M0)
    /\ Z.of_nat (length Y0) = N m /\ Z.of_nat (length W0) = N m
    /\ Z.of_nat (length M0) = N m
    /\ forall (h : nat) (p : R),
         Z.of_nat h < N m -> population m !! h = Some p ->
         Y0 !! h = Some (compute_nominal_gdp [1%R] [p] (model_params m))
         /\ W0 !! h = Some (compute_nominal_wage [1%R] [p] (model_params m))
         /\ M0 !! h = Some (compute_number_firms [1%R] [p] (model_params m)).
Proof.
  intros HN.
  destruct (guess_fin compute_nominal_gdp compute_nominal_wage
              compute_number_firms uninitialised m HN)
    as (Y0 & W0 & M0 & Hg & Hl).
  exists Y0, W0, M0. split; [done|].
  pose proof Hl as Hlen. apply guess_loop_length in Hlen as (HY & HW & HM).
  rewrite !length_map, !length_seq in HY, HW, HM.
  split; [lia|]. split; [lia|]. split; [lia|].
  intros h p Hh Hp.
  rewrite PyFacts.slice_prefix in Hl by lia.
  eapply (guess_loop_at _ _ _ _ _ 0%nat _ _ _ _ _ _ h p) in Hl;
    [ exact Hl | by (rewrite lookup_take_lt by lia) | .. ];
    rewrite ?length_map, ?length_seq; lia.
Qed.

End UnknownVector.

(** The guess of the two-city instance, entry by entry. *)
Lemma toy_guess :
  Solvers.guess unit Toy.gdp Toy.wage Toy.firms Toy.zeros Toy.two_cities
  = Fin [1; 3; 5; 1; 1; 2 * 3; 2 * 5]%R.
Proof. reflexivity. Qed.

(** C1 as the spec words it fails for two cities: the guess has 7 entries,
    and 4N-3 is 5. *)
Lemma unknown_vector_length_counterexample :
  2 <= Solvers.N Toy.two_cities
  /\ exists g,
       Solvers.guess unit Toy.gdp Toy.wage Toy.firms Toy.zeros Toy.two_cities
       = Fin g
       /\ length g = 7%nat
       /\ Z.of_nat (length g) <> 4 * Solvers.N Toy.two_cities - 3.
Proof.
  split; [done|]. eexists. split; [exact toy_guess|]. split; [done|].
  cbn. lia.
Qed.

Lemma unknown_vector_layout_witness :
  1 <= Solvers.N Toy.two_cities
  /\ exists g,
       Solvers.guess unit Toy.gdp Toy.wage Toy.firms Toy.zeros Toy.two_cities
       = Fin g
       /\ Z.of_nat (length g) = 7.
Proof.
  split; [cbn; lia|].
  destruct (unknown_vector_layout Toy.gdp Toy.wage Toy.firms Toy.zeros
              Toy.two_cities) as [Hg _]; [cbn; lia|].
  exact Hg.
Defined.

Lemma islands_guess_blocks_witness :
  1 <= Solvers.N Toy.two_cities
  /\ exists Y0 W0 M0,
       Solvers.guess unit Toy.gdp Toy.wage Toy.firms Toy.zeros Toy.two_cities
       = Fin (replicate 1 1%R ++ Y0 ++ W0 ++ M0)
       /\ Y0 !! 1%nat = Some (Toy.gdp [1%R] [5%R] tt)
       /\ W0 !! 1%nat = Some (Toy.wage [1%R] [5%R] tt)
       /\ M0 !! 1%nat = Some (Toy.firms [1%R] [5%R] tt).
Proof.
  split; [cbn; lia|].
  destruct (islands_guess_blocks Toy.gdp Toy.wage Toy.firms Toy.zeros
              Toy.two_cities) as (Y0 & W0 & M0 & Hg & _ & _ & _ & Hh);
    [cbn; lia|].
  exists Y0, W0, M0. split; [exact Hg|].
  apply (Hh 1%nat 5%R); [cbn; lia | reflexivity].
Defined.

(** ** The cache of compiled functions *)

Section Cache.
Import Solvers.
Context {params : Type}.
Variable lambdify : list expr -> list (list expr) -> numeric_fn params.

Abbreviation get_fn := (get params lambdify).
Abbreviation step_of := (step params lambdify).
Abbreviation run_of := (run params lambdify).

Lemma get_cached t s fn : cached t s = Some fn -> get_fn t s = (fn, s).
Proof.
  destruct t; cbn; unfold _numeric_jacobian, _numeric_system; by intros ->.
Qed.

Lemma get_vacant t s :
  cached t s = None ->
  cached t (get_fn t s).2 = Some (get_fn t s).1
  /\ built (get_fn t s).2 = t :: built s
  /\ oid (get_fn t s).1 = length (built s).
Proof.
  destruct t; cbn; unfold _numeric_jacobian, _numeric_system; by intros ->.
Qed.

(** Reading one function leaves the cache of the other alone. *)
Lemma get_other t u s : t <> u -> cached t (get_fn u s).2 = cached t s.
Proof.
  destruct t, u; try done; intros _; cbn;
    unfold _numeric_jacobian, _numeric_system;
    by case_match.
Qed.

Lemma builds_get_other t u s : t <> u -> builds t (get_fn u s).2 = builds t s.
Proof.
  destruct t, u; try done; intros _; cbn;
    unfold _numeric_jacobian, _numeric_system, builds;
    by case_match.
Qed.

Lemma builds_get t s :
  (builds t (get_fn t s).2 + vacant t (get_fn t s).2
   = builds t s + vacant t s)%nat.
Proof.
  unfold vacant. destruct (cached t s) as [fn|] eqn:Hc.
  - rewrite (get_cached _ _ _ Hc). cbn. by rewrite Hc.
  - destruct (get_vacant t s Hc) as (-> & Hb & _).
    unfold builds. rewrite Hb, filter_cons_True by done. cbn. lia.
Qed.

Lemma step_reads a t s : reads a = Some t -> step_of s a = (get_fn t s).2.
Proof. by destruct a; intros [= <-]. Qed.

(** One access builds the function [t] only if [t] was not cached, and the
    cache is emptied only by [_clear_cache]. *)
Lemma step_builds t s a :
  (builds t (step_of s a) + vacant t (step_of s a)
   <= builds t s + vacant t s + clears [a])%nat.
Proof.
  destruct (reads a) as [u|] eqn:Ha.
  - rewrite (step_reads _ _ _ Ha).
    assert (clears [a] = 0%nat) as -> by (by destruct a).
    destruct (decide (t = u)) as [->|Hne].
    + rewrite builds_get. lia.
    + unfold vacant. rewrite builds_get_other, get_other by done. lia.
  - destruct a; try done.
    change (builds t (step_of s ClearCache)) with (builds t s).
    assert (vacant t (step_of s ClearCache) = 1%nat) as -> by (by destruct t).
    change (clears [ClearCache]) with 1%nat. lia.
Qed.

Lemma clears_cons a history :
  clears (a :: history) = (clears [a] + clears history)%nat.
Proof.
  unfold clears. destruct (decide (ClearCache = a)) as [Ha|Ha].
  - by rewrite !filter_cons_True by done.
  - by rewrite !filter_cons_False by done.
Qed.

Lemma run_builds t history : forall s,
  (builds t (run_of s history) + vacant t (run_of s history)
   <= builds t s + vacant t s + clears history)%nat.
Proof.
  induction history as [|a history IH]; intros s; [cbn; lia|].
  rewrite clears_cons.
  change (run_of s (a :: history)) with (run_of (step_of s a) history).
  pose proof (IH (step_of s a)). pose proof (step_builds t s a). lia.
Qed.

(** Without a clear, a cached function stays where it is. *)
Lemma run_keeps t history : forall s fn,
  cached t s = Some fn -> clears history = 0%nat ->
  cached t (run_of s history) = Some fn.
Proof.
  induction history as [|a history IH]; intros s fn Hc Hn; [done|].
  rewrite clears_cons in Hn.
  change (run_of s (a :: history)) with (run_of (step_of s a) history).
  apply IH; [|lia].
  destruct (reads a) as [u|] eqn:Ha.
  - rewrite (step_reads _ _ _ Ha). destruct (decide (t = u)) as [->|Hne].
    + by rewrite (get_cached _ _ _ Hc).
    + by rewrite get_other.
  - by destruct a.
Qed.

(** C7.  For each of the two numeric functions: reading the property while
    nothing is cached builds the function with [lambdify] and caches it;
    from then on, through any history of reads without a clear, reading it
    returns the very same function object and builds nothing; and over any
    history of a new solver the function is built at most once more than the
    cache is cleared, hence at most once when it is never cleared. *)
Theorem numeric_functions_built_once (t : target) (m : Model params) :
  cached t (new_solver m) = None
  /\ (forall s : Solver params, cached t s = None ->
        cached t (get_fn t s).2 = Some (get_fn t s).1
        /\ built (get_fn t s).2 = t :: built s)
  /\ (forall (s : Solver params) fn history,
        cached t s = Some fn -> clears history = 0%nat ->
        get_fn t (run_of s history) = (fn, run_of s history))
  /\ (forall history,
        (builds t (run_of (new_solver m) history) <= 1 + clears history)%nat)
  /\ (forall s : Solver params, cached t (_clear_cache s) = None).
Proof.
  split; [by destruct t|]. split.
  { intros s Hs. by destruct (get_vacant t s Hs) as (? & ? & _). }
  split.
  { intros s fn history Hc Hn. apply get_cached. by apply run_keeps. }
  split.
  { intros history. pose proof (run_builds t history (new_solver m)) as H.
    assert (builds t (new_solver m) = 0%nat) as Hb by done.
    assert (vacant t (new_solver m) = 1%nat) as Hv by (by destruct t).
    lia. }
  by destruct t.
Qed.

End Cache.

(** ** Residual, Jacobian and [solve] *)

Section Solve.
Import Solvers.
Context {params kwargs : Type}.
Variable lambdify : list expr -> list (list expr) -> numeric_fn params.
Variable compute_nominal_gdp compute_nominal_wage compute_number_firms :
  list R -> list R -> params -> R.
Variable uninitialised : nat -> nat -> R.
Variable root :
  (list R -> outcome (list R)) -> list R ->
  option (list R -> outcome (list (list R))) -> string -> kwargs ->
  OptimizeResult.

Abbreviation system_of := (system params lambdify).
Abbreviation jacobian_of := (jacobian params lambdify).
Abbreviation solve_of :=
  (solve params lambdify compute_nominal_gdp compute_nominal_wage
     compute_number_firms uninitialised kwargs root).
Abbreviation initial_guess :=
  (guess params compute_nominal_gdp compute_nominal_wage compute_number_firms
     uninitialised).

(** The residual is the compiled system at the four blocks of [X]. *)
Lemma system_value (s : Solver params) X P Y W M :
  unpack (N (model s)) X = (P, Y, W, M) ->
  (system_of s X).1
  = concat (A:=R) <$>
      call (_numeric_system params lambdify s).1 P Y W M
        (population (model s)) (model_params (model s)).
Proof.
  intros HX. unfold Solvers.system. rewrite HX.
  by destruct (_numeric_system params lambdify s).
Qed.

Lemma jacobian_value (s : Solver params) X P Y W M :
  unpack (N (model s)) X = (P, Y, W, M) ->
  (jacobian_of s X).1
  = call (_numeric_jacobian params lambdify s).1 P Y W M
      (population (model s)) (model_params (model s)).
Proof.
  intros HX. unfold Solvers.jacobian. rewrite HX.
  by destruct (_numeric_jacobian params lambdify s).
Qed.

Lemma model_after_read (s : Solver params) t :
  model (get params lambdify t s).2 = model s.
Proof.
  destruct t; cbn; unfold _numeric_jacobian, _numeric_system; by case_match.
Qed.

(** A read of either property leaves the code of both functions as it was:
    what the read caches is what the next read would build. *)
Lemma call_after_read (s : Solver params) t u :
  call (get params lambdify u (get params lambdify t s).2).1
  = call (get params lambdify u s).1.
Proof.
  destruct t, u; cbn; unfold _numeric_jacobian, _numeric_system;
    destruct (__numeric_jacobian s) eqn:HJ, (__numeric_system s) eqn:HS;
    cbn; by rewrite ?HJ, ?HS.
Qed.

(** Hence the values of [system] and [jacobian] do not change either. *)
Lemma system_after_read (s : Solver params) t X :
  (system_of (get params lambdify t s).2 X).1 = (system_of s X).1.
Proof.
  destruct (unpack (N (model s)) X) as [[[P Y] W] M] eqn:HX.
  rewrite (system_value s X P Y W M HX).
  rewrite (system_value _ X P Y W M) by (by rewrite model_after_read).
  rewrite model_after_read.
  pose proof (call_after_read s t System) as Hc. cbn [Solvers.get] in Hc.
  by rewrite Hc.
Qed.

Lemma jacobian_after_read (s : Solver params) t X :
  (jacobian_of (get params lambdify t s).2 X).1 = (jacobian_of s X).1.
Proof.
  destruct (unpack (N (model s)) X) as [[[P Y] W] M] eqn:HX.
  rewrite (jacobian_value s X P Y W M HX).
  rewrite (jacobian_value _ X P Y W M) by (by rewrite model_after_read).
  rewrite model_after_read.
  pose proof (call_after_read s t Jacobian) as Hc. cbn [Solvers.get] in Hc.
  by rewrite Hc.
Qed.

(** C3.  Let the model have N >= 1 cities and let X hold at least N-1
    entries.  Then [Solver.system], [Solver.jacobian] and the two stand-alone
    functions of the sandbox all call their compiled function with one and
    the same price array P: its first entry is 1, its remaining N-1 entries
    are the first N-1 entries of X, so it has N entries and the numeraire is
    no part of X. *)
Theorem numeraire_prepended (s : Solver params) (X : list R) :
  1 <= N (model s) -> N (model s) - 1 <= Z.of_nat (length X) ->
  exists P Y W M,
    P = 1%R :: take (Z.to_nat (N (model s) - 1)) X
    /\ P !! 0%nat = Some 1%R
    /\ Z.of_nat (length P) = N (model s)
    /\ (forall i : nat, Z.of_nat i < N (model s) - 1 -> P !! S i = X !! i)
    /\ (system_of s X).1
       = concat (A:=R) <$>
           call (_numeric_system params lambdify s).1 P Y W M
             (population (model s)) (model_params (model s))
    /\ (jacobian_of s X).1
       = call (_numeric_jacobian params lambdify s).1 P Y W M
           (population (model s)) (model_params (model s))
    /\ (forall numeric_system f beta phi tau theta,
          Sandbox.equilibrium_system (N (model s)) numeric_system X
            f beta phi tau theta
          = concat (A:=R) <$> numeric_system P Y W M f beta phi tau theta)
    /\ (forall numeric_jacobian f beta phi tau theta,
          Sandbox.equilibrium_jacobian (N (model s)) numeric_jacobian X
            f beta phi tau theta
          = numeric_jacobian P Y W M f beta phi tau theta).
Proof.
  intros HN HX.
  pose proof (UnpackFacts.unpack_blocks (N (model s)) X HN) as Hu.
  eexists _, _, _, _. split; [reflexivity|]. split; [done|].
  split; [cbn [length]; rewrite length_take; lia|].
  split.
  { intros i Hi.
    change (take (Z.to_nat (N (model s) - 1)) X !! i = X !! i).
    apply lookup_take_lt. lia. }
  split; [by apply system_value|]. split; [by apply jacobian_value|].
  split; intros; unfold Sandbox.equilibrium_system,
    Sandbox.equilibrium_jacobian; by rewrite Hu.
Qed.

(** [solve] computes the guess and returns what the root finder returns for
    the residual, the guess and, on request, the Jacobian. *)
Lemma solve_fin (s : Solver params) method with_jacobian kw x0 :
  initial_guess (model s) = Fin x0 ->
  solve_of s method with_jacobian kw
  = Fin (root (fun X => (system_of s X).1) x0
           (if with_jacobian then Some (fun X => (jacobian_of s X).1)
            else None)
           method kw).
Proof. intros Hg. unfold Solvers.solve. by rewrite Hg. Qed.

End Solve.

(** ** The equations and their values *)

Section EquationFacts.
#[local] Open Scope R_scope.
#[local] Arguments Np.divide : simpl never.
#[local] Arguments Np.power : simpl never.

Lemma eval_labor_productivity v h j row d :
  v_delta v !! h = Some row -> row !! j = Some d -> d <> 0 ->
  eval v (labor_productivity h j) = Fin (v_phi v / d).
Proof.
  intros Hrow Hd Hd0. unfold labor_productivity.
  cbn. rewrite Hrow. cbn. rewrite Hd. cbn.
  by apply NpFacts.divide_fin.
Qed.

(** The markup at an elasticity other than 1. *)
Lemma eval_mark_up v j t :
  v_theta v !! j = Some t -> t <> 1 ->
  eval v (mark_up j) = Fin (t / (t - 1)).
Proof.
  intros Ht Hne. unfold mark_up. cbn. rewrite Ht. cbn.
  apply NpFacts.divide_fin. lra.
Qed.

(** Quantity demanded at a positive price. *)
Lemma eval_quantity_demand v price j p t Pj Yj :
  eval v price = Fin p -> v_theta v !! j = Some t ->
  v_P v !! j = Some Pj -> v_Y v !! j = Some Yj ->
  0 < p -> 0 < Pj ->
  eval v (quantity_demand price j) = Fin (Rpower (p / Pj) (- t) * (Yj / Pj)).
Proof.
  intros Hp Ht HP HY Hp0 HP0. unfold quantity_demand, relative_price, real_gdp.
  cbn. rewrite Hp, Ht, HP, HY. cbn.
  rewrite (NpFacts.divide_fin p Pj), (NpFacts.divide_fin Yj Pj) by lra. cbn.
  by rewrite NpFacts.power_pos by (by apply Rdiv_lt_0_compat).
Qed.

(** [x ** y] falls strictly in [x > 0] when [y < 0]. *)
Lemma Rpower_decreasing x1 x2 y :
  0 < x1 -> x1 < x2 -> y < 0 -> Rpower x2 y < Rpower x1 y.
Proof.
  intros H1 H12 Hy. unfold Rpower. apply exp_increasing.
  assert (ln x1 < ln x2) by (by apply ln_increasing).
  nra.
Qed.

(** C5.  Where the wage of city [h] is [w] and the economic distance from
    [h] to [j] is a non-zero [d], with [phi] non-zero: labor productivity is
    [phi / d], marginal cost is the wage divided by it, and at wage 2 and
    productivity 4 marginal cost is 0.5. *)
Theorem marginal_costs_value v h j w row d :
  v_W v !! h = Some w ->
  v_delta v !! h = Some row -> row !! j = Some d ->
  d <> 0 -> v_phi v <> 0 ->
  eval v (labor_productivity h j) = Fin (v_phi v / d)
  /\ eval v (marginal_costs h j) = Fin (w / (v_phi v / d))
  /\ (w = 2 -> v_phi v / d = 4 -> eval v (marginal_costs h j) = Fin 0.5).
Proof.
  intros Hw Hrow Hd Hd0 Hphi.
  pose proof (eval_labor_productivity _ _ _ _ _ Hrow Hd Hd0) as Hprod.
  assert (Hmc : eval v (marginal_costs h j) = Fin (w / (v_phi v / d))).
  { unfold marginal_costs.
    change (eval v (nominal_wage h / labor_productivity h j)%E)
      with (x ← of_lookup (v_W v !! h);
            y ← eval v (labor_productivity h j); Np.divide x y).
    rewrite Hprod, Hw. cbn.
    apply NpFacts.divide_fin. intros Hz.
    apply Rmult_integral in Hz as [Hz|Hz]; [done|].
    by apply Rinv_neq_0_compat in Hz. }
  split; [done|]. split; [done|].
  intros -> H4. rewrite Hmc, H4. f_equal. lra.
Qed.

(** C10.  With elasticity [theta[j] > 0], price level [P[j] > 0] and nominal
    GDP [Y[j] > 0], the quantity demanded in city [j] has a finite value at
    every positive price, and of two positive prices the higher one has the
    strictly smaller quantity. *)
Theorem quantity_demand_decreasing v j t Pj Yj price1 price2 p1 p2 :
  v_theta v !! j = Some t -> v_P v !! j = Some Pj -> v_Y v !! j = Some Yj ->
  0 < t -> 0 < Pj -> 0 < Yj ->
  eval v price1 = Fin p1 -> eval v price2 = Fin p2 ->
  0 < p1 -> p1 < p2 ->
  exists q1 q2,
    eval v (quantity_demand price1 j) = Fin q1
    /\ eval v (quantity_demand price2 j) = Fin q2
    /\ q2 < q1.
Proof.
  intros Ht HP HY Ht0 HP0 HY0 H1 H2 Hp1 Hp12.
  eexists _, _.
  split; [by eapply eval_quantity_demand|].
  split; [eapply eval_quantity_demand; eauto; lra|].
  apply Rmult_lt_compat_r; [by apply Rdiv_lt_0_compat|].
  apply Rpower_decreasing; [by apply Rdiv_lt_0_compat| |lra].
  apply Rmult_lt_compat_r; [by apply Rinv_0_lt_compat|done].
Qed.

End EquationFacts.

Lemma marginal_costs_value_witness :
  eval (one_city_point 10 2 4 1) (marginal_costs 0 0) = Fin 0.5%R.
Proof.
  refine (proj2 (proj2 (marginal_costs_value (one_city_point 10 2 4 1)
            0 0 2%R [1%R] 1%R _ _ _ _ _)) _ _);
    cbn; first [reflexivity | lra].
Defined.

Lemma quantity_demand_decreasing_witness :
  exists q1 q2,
    eval (one_city_point 10 2 4 1) (quantity_demand (Int 1) 0) = Fin q1
    /\ eval (one_city_point 10 2 4 1) (quantity_demand (Int 2) 0) = Fin q2
    /\ (q2 < q1)%R.
Proof.
  apply (quantity_demand_decreasing (one_city_point 10 2 4 1) 0 10%R 1%R 1%R
           (Int 1) (Int 2) 1%R 2%R);
    cbn; first [reflexivity | lra].
Defined.

(** ** The system of equations *)

(** C4.  The system for [n] cities has 3n expressions: for every city [h]
    below [n] its goods-market clearing (at position h), its labor-market
    clearing (at n + h) and its resource constraint (at 2n + h). *)
Theorem symbolic_system_shape (n : nat) :
  length (symbolic_system n) = (3 * n)%nat
  /\ forall h : nat, (h < n)%nat ->
       symbolic_system n !! h = Some (goods_market_clearing n h)
       /\ symbolic_system n !! (n + h)%nat = Some (labor_market_clearing n h)
       /\ symbolic_system n !! (2 * n + h)%nat = Some (resource_constraint h).
Proof.
  unfold symbolic_system, range. split.
  - rewrite !length_app, !length_map, !length_seq. lia.
  - intros h Hh. split; [|split].
    + rewrite lookup_app_l by (rewrite length_map, length_seq; lia).
      by rewrite list_lookup_fmap, lookup_seq_lt.
    + rewrite lookup_app_r by (rewrite length_map, length_seq; lia).
      rewrite length_map, length_seq.
      rewrite lookup_app_l by (rewrite length_map, length_seq; lia).
      replace (n + h - n)%nat with h by lia.
      by rewrite list_lookup_fmap, lookup_seq_lt.
    + rewrite lookup_app_r by (rewrite length_map, length_seq; lia).
      rewrite length_map, length_seq.
      rewrite lookup_app_r by (rewrite length_map, length_seq; lia).
      rewrite length_map, length_seq.
      replace (2 * n + h - n - n)%nat with h by lia.
      by rewrite list_lookup_fmap, lookup_seq_lt.
Qed.

(** ** Elasticity 1 *)

Section Elasticity.
Import Solvers Models.
Context {params kwargs : Type}.
Variable elasticities : params -> list R.
Variable lambdify : list expr -> list (list expr) -> numeric_fn params.
Variable compute_nominal_gdp compute_nominal_wage compute_number_firms :
  list R -> list R -> params -> R.
Variable uninitialised : nat -> nat -> R.
Variable root :
  (list R -> outcome (list R)) -> list R ->
  option (list R -> outcome (list (list R))) -> string -> kwargs ->
  OptimizeResult.

Lemma elasticity_is_one_spec t : elasticity_is_one t = true <-> t = 1%R.
Proof. unfold elasticity_is_one. by destruct (Req_dec_T t 1). Qed.

(** A vector that passes the check holds no 1. *)
Lemma checked_elasticities (theta : list R) j t :
  existsb elasticity_is_one theta = false -> theta !! j = Some t -> t <> 1%R.
Proof.
  intros Hnone Ht ->.
  assert (Hone : existsb elasticity_is_one theta = true).
  { apply existsb_exists. exists 1%R. split.
    - by apply list_elem_of_In, list_elem_of_lookup_2 with j.
    - by apply elasticity_is_one_spec. }
  congruence.
Qed.

(** C2.  If theta[j] is 1 for a city j, constructing the model ends in a
    malformed-parameter error with a non-empty description, and the driver
    ends with that very error whatever [lambdify] and the root finder are:
    no numeric function is built and no root finding begins.  A model that
    is constructed holds no elasticity 1, so the markup of each of its cities
    is evaluated by a division by a non-zero number and has the value
    theta / (theta - 1). *)
Theorem elasticity_one_rejected (fields : Model params) (j : nat)
    method with_jacobian kw :
  elasticities (model_params fields) !! j = Some 1%R ->
  exists description,
    description <> EmptyString
    /\ new_model elasticities fields = MalformedParameter description
    /\ construct_and_solve elasticities lambdify compute_nominal_gdp
         compute_nominal_wage compute_number_firms uninitialised root
         fields method with_jacobian kw
       = MalformedParameter description
    /\ (forall fields' model (v : env) j' t,
          new_model elasticities fields' = Constructed model ->
          v_theta v = elasticities (model_params model) ->
          v_theta v !! j' = Some t ->
          t <> 1%R /\ eval v (mark_up j') = Fin (t / (t - 1))%R).
Proof.
  intros Hj.
  assert (Hone : existsb elasticity_is_one
                   (elasticities (model_params fields)) = true).
  { apply existsb_exists. exists 1%R. split.
    - by apply list_elem_of_In, list_elem_of_lookup_2 with j.
    - by apply elasticity_is_one_spec. }
  eexists. split; [|split; [|split]].
  - shelve.
  - unfold new_model. rewrite Hone. reflexivity.
  - unfold construct_and_solve, new_model. rewrite Hone. reflexivity.
  - intros fields' model v j' t Hnew Hv Ht. unfold new_model in Hnew.
    destruct (existsb elasticity_is_one
                (elasticities (model_params fields'))) eqn:Hnone; [done|].
    injection Hnew as <-. rewrite Hv in Ht.
    pose proof (checked_elasticities _ j' t Hnone Ht) as Hne.
    split; [done|]. apply eval_mark_up; [|done]. by rewrite Hv.
  Unshelve. done.
Qed.

End Elasticity.

(** A model with elasticity 10 is constructed. *)
Lemma elasticity_ten_constructed :
  Models.new_model Toy.p_theta (Toy.one_city 10)
  = Models.Constructed (Toy.one_city 10).
Proof.
  unfold Models.new_model. cbn. unfold Models.elasticity_is_one.
  destruct (Req_dec_T 10 1) as [H|_]; [lra|done].
Qed.

(** ** The distance matrices *)

Section MaxFacts.
#[local] Open Scope R_scope.

Lemma foldr_Rmax_in x a : In (foldr Rmax x a) (x :: a).
Proof.
  induction a as [|y a IH]; cbn; [by left|].
  destruct (Rmax_case y (foldr Rmax x a) (fun r => r = y \/ r = foldr Rmax x a))
    as [H|H]; try tauto.
  - right. left. done.
  - rewrite H. cbn in IH. tauto.
Qed.

Lemma foldr_Rmax_ge x a z : In z (x :: a) -> z <= foldr Rmax x a.
Proof.
  induction a as [|y a IH]; cbn.
  - intros [->|[]]. lra.
  - intros [->|[->|Hz]].
    + etransitivity; [|apply Rmax_r]. apply IH. by left.
    + apply Rmax_l.
    + etransitivity; [|apply Rmax_r]. apply IH. by right.
Qed.

(** The maximum of a non-empty array is one of its entries and bounds them
    all. *)
Lemma max_spec l m : Np.max l = Fin m -> In m l /\ forall z, In z l -> z <= m.
Proof.
  destruct l as [|x a]; [done|]. intros [= <-]. split.
  - apply foldr_Rmax_in.
  - apply foldr_Rmax_ge.
Qed.

Lemma max_fin l z : In z l -> exists m, Np.max l = Fin m.
Proof. destruct l; [done|]. by eexists. Qed.

(** The maximum is the entry that bounds all entries. *)
Lemma max_unique l m : In m l -> (forall z, In z l -> z <= m) -> Np.max l = Fin m.
Proof.
  intros Hm Hub. destruct (max_fin l m Hm) as [m' Hm'].
  destruct (max_spec l m' Hm') as [Hin Hub']. rewrite Hm'. f_equal.
  apply Rle_antisym; auto.
Qed.

Lemma sequence_map_fin {A B} (g : A -> outcome B) (h : A -> B) l :
  (forall a, In a l -> g a = Fin (h a)) ->
  sequence (map g l) = Fin (map h l).
Proof.
  induction l as [|a l IH]; intros Hg; [done|].
  cbn. rewrite Hg by (by left). cbn. rewrite IH; [done|].
  intros b Hb. apply Hg. by right.
Qed.

Lemma divide_zero_zero : Np.divide 0 0 = Fault InvalidValue.
Proof.
  unfold Np.divide. by destruct (Req_dec_T 0 0).
Qed.

(** Dividing by a non-zero maximum succeeds entry by entry. *)
Lemma normed_fin a m :
  Np.max (concat a) = Fin m -> m <> 0 ->
  normed a = Fin (map (map (fun d => d / m)) a).
Proof.
  intros Hm Hm0. unfold normed. rewrite Hm. cbn.
  apply sequence_map_fin. intros row _.
  apply sequence_map_fin. intros d _. by apply NpFacts.divide_fin.
Qed.

End MaxFacts.

Section DistanceFacts.
#[local] Open Scope R_scope.
Variable metric : coords -> coords -> R.

Lemma entry_distance_matrix data i j :
  entry (distance_matrix metric data) i j
  = a ← data !! i; b ← data !! j; Some (metric a b).
Proof.
  unfold entry, distance_matrix. rewrite list_lookup_fmap.
  destruct (data !! i) as [a|]; [|done]. cbn. rewrite list_lookup_fmap.
  by destruct (data !! j).
Qed.

Lemma in_distance_matrix data z :
  In z (concat (distance_matrix metric data))
  <-> exists a b, In a data /\ In b data /\ z = metric a b.
Proof.
  unfold distance_matrix. rewrite in_concat. split.
  - intros (row & Hrow & Hz). apply in_map_iff in Hrow as (a & <- & Ha).
    apply in_map_iff in Hz as (b & <- & Hb). by exists a, b.
  - intros (a & b & Ha & Hb & ->). eexists. split.
    + apply in_map_iff. by exists a.
    + apply in_map_iff. by exists b.
Qed.

(** Shape, sign, symmetry and diagonal of one distance matrix, and its
    normalisation when some distance is positive. *)
Lemma distance_matrix_spec data :
  is_distance metric ->
  let D := distance_matrix metric data in
  length D = length data
  /\ Forall (fun row => length row = length data) D
  /\ (forall i j d, entry D i j = Some d -> 0 <= d /\ entry D j i = Some d)
  /\ (forall i, (i < length data)%nat -> entry D i i = Some 0)
  /\ ((exists a b, In a data /\ In b data /\ 0 < metric a b) ->
      exists m D',
        Np.max (concat D) = Fin m /\ 0 < m
        /\ normed D = Fin D'
        /\ D' = map (map (fun d => d / m)) D
        /\ (forall z, In z (concat D') -> 0 <= z <= 1)
        /\ Np.max (concat D') = Fin 1).
Proof.
  intros (Hpos & Hsym & Hdiag) D. subst D.
  split; [apply length_map|].
  split; [apply Forall_forall; intros row Hrow;
          apply list_elem_of_In, in_map_iff in Hrow as (a & <- & _);
          apply length_map|].
  split.
  { intros i j d. rewrite !entry_distance_matrix.
    destruct (data !! i) as [a|], (data !! j) as [b|]; cbn; try done.
    intros [= <-]. split; [apply Hpos|]. by rewrite Hsym. }
  split.
  { intros i Hi. rewrite entry_distance_matrix.
    destruct (lookup_lt_is_Some_2 data i Hi) as [a ->]. cbn. by rewrite Hdiag. }
  intros (a & b & Ha & Hb & Hab).
  assert (Hin : In (metric a b) (concat (distance_matrix metric data)))
    by (apply in_distance_matrix; eauto).
  destruct (max_fin _ _ Hin) as [m Hm].
  destruct (max_spec _ _ Hm) as [Hmin Hub].
  assert (Hm0 : 0 < m) by (specialize (Hub _ Hin); lra).
  exists m. eexists. split; [done|]. split; [done|].
  split; [apply normed_fin; [done|lra]|]. split; [done|].
  assert (Hcat : forall z,
    In z (concat (map (map (fun d => d / m)) (distance_matrix metric data)))
    <-> exists d, In d (concat (distance_matrix metric data)) /\ z = d / m).
  { intros z. rewrite <- concat_map, in_map_iff. split.
    - intros (d & <- & Hd). eauto.
    - intros (d & Hd & ->). eauto. }
  assert (Hunit : forall z,
    In z (concat (map (map (fun d => d / m)) (distance_matrix metric data))) ->
    0 <= z <= 1).
  { intros z (d & Hd & ->)%Hcat. pose proof (Hub d Hd).
    apply in_distance_matrix in Hd as (a' & b' & _ & _ & ->).
    pose proof (Hpos a' b'). split.
    - apply Rle_mult_inv_pos; lra.
    - apply Rmult_le_reg_r with m; [lra|]. unfold Rdiv.
      rewrite Rmult_assoc, Rinv_l by lra. lra. }
  split; [done|].
  apply max_unique.
  - apply Hcat. exists m. split; [done|]. field. lra.
  - intros z Hz. by apply Hunit.
Qed.

(** The normalisation of a non-negative distance matrix with a positive
    entry. *)
Lemma normed_unit data :
  (forall a b, 0 <= metric a b) ->
  (exists a b, In a data /\ In b data /\ 0 < metric a b) ->
  exists D',
    normed (distance_matrix metric data) = Fin D'
    /\ length D' = length data
    /\ Forall (fun row => length row = length data) D'
    /\ (forall z, In z (concat D') -> 0 <= z <= 1)
    /\ Np.max (concat D') = Fin 1.
Proof.
  intros Hpos (a & b & Ha & Hb & Hab).
  assert (Hin : In (metric a b) (concat (distance_matrix metric data)))
    by (apply in_distance_matrix; eauto).
  destruct (max_fin _ _ Hin) as [m Hm].
  destruct (max_spec _ _ Hm) as [Hmin Hub].
  assert (Hm0 : 0 < m) by (specialize (Hub _ Hin); lra).
  exists (map (map (fun d => d / m)) (distance_matrix metric data)).
  split; [apply normed_fin; [done|lra]|].
  split; [unfold distance_matrix; by rewrite !length_map|].
  split.
  { apply Forall_forall. intros row' Hrow'.
    apply list_elem_of_In, in_map_iff in Hrow' as (row & <- & Hrow).
    unfold distance_matrix in Hrow.
    apply in_map_iff in Hrow as (c & <- & _). by rewrite !length_map. }
  assert (Hcat : forall z,
    In z (concat (map (map (fun d => d / m)) (distance_matrix metric data)))
    <-> exists d, In d (concat (distance_matrix metric data)) /\ z = d / m).
  { intros z. rewrite <- concat_map, in_map_iff. split.
    - intros (d & <- & Hd). eauto.
    - intros (d & Hd & ->). eauto. }
  assert (Hunit : forall z,
    In z (concat (map (map (fun d => d / m)) (distance_matrix metric data))) ->
    0 <= z <= 1).
  { intros z (d & Hd & ->)%Hcat. pose proof (Hub d Hd).
    apply in_distance_matrix in Hd as (a' & b' & _ & _ & ->).
    pose proof (Hpos a' b'). split.
    - apply Rle_mult_inv_pos; lra.
    - apply Rmult_le_reg_r with m; [lra|]. unfold Rdiv.
      rewrite Rmult_assoc, Rinv_l by lra. lra. }
  split; [done|].
  apply max_unique.
  - apply Hcat. exists m. split; [done|]. field. lra.
  - intros z Hz. by apply Hunit.
Qed.

End DistanceFacts.

Section TaxicabFacts.
#[local] Open Scope R_scope.

Lemma taxicab_is_distance : is_distance taxicab.
Proof.
  unfold taxicab. split; [|split].
  - intros a b. pose proof (Rabs_pos (a.1 - b.1)).
    pose proof (Rabs_pos (a.2 - b.2)). lra.
  - intros a b. by rewrite (Rabs_minus_sym (a.1)), (Rabs_minus_sym (a.2)).
  - intros a. rewrite !Rminus_diag, Rabs_R0. lra.
Qed.

Lemma taxicab_one_degree : taxicab (0, 0) (1, 0) = 1.
Proof.
  unfold taxicab. cbn. rewrite Rminus_diag, Rabs_R0, Rabs_minus_sym.
  replace (1 - 0) with 1 by lra. rewrite Rabs_R1. lra.
Qed.

End TaxicabFacts.

(** C9, as amended.  For every table of coordinates, each of the two
    matrices is N x N and its entry [i, j] is the value of its distance
    function at rows [i] and [j] of the table.  So the matrix has no negative
    entry if the function has no negative value, is symmetric if the function
    is, and is zero on the diagonal if the function is zero from a point to
    itself.  And if the function has no negative value and the table holds
    two cities at a positive distance, the normalised matrix is again N x
    N, every entry of it lies in [0, 1], and its maximum is 1. *)
Theorem physical_distances_normalised
    (great_circle vincenty : coords -> coords -> R) (data : list coords) :
  forall metric D normed_D,
    In (metric, D, normed_D)
       [(great_circle,
         (compute_physical_distance great_circle vincenty data).1,
         normed_great_circle_distance great_circle vincenty data);
        (vincenty,
         (compute_physical_distance great_circle vincenty data).2,
         normed_vincenty_distance great_circle vincenty data)] ->
    length D = length data
    /\ Forall (fun row => length row = length data) D
    /\ (forall i j,
          entry D i j = a ← data !! i; b ← data !! j; Some (metric a b))
    /\ ((forall a b, (0 <= metric a b)%R) ->
        forall i j d, entry D i j = Some d -> (0 <= d)%R)
    /\ ((forall a b, metric a b = metric b a) ->
        forall i j, entry D i j = entry D j i)
    /\ ((forall a, metric a a = 0%R) ->
        forall i, (i < length data)%nat -> entry D i i = Some 0%R)
    /\ ((forall a b, (0 <= metric a b)%R) ->
        (exists a b, In a data /\ In b data /\ (0 < metric a b)%R) ->
        exists D',
          normed_D = Fin D'
          /\ length D' = length data
          /\ Forall (fun row => length row = length data) D'
          /\ (forall z, In z (concat D') -> (0 <= z <= 1)%R)
          /\ Np.max (concat D') = Fin 1%R).
Proof.
  intros metric D normed_D HD.
  assert (Hcase : D = distance_matrix metric data /\ normed_D = normed D).
  { by destruct HD as [[= <- <- <-]|[[= <- <- <-]|[]]]. }
  destruct Hcase as [-> ->].
  split; [apply length_map|].
  split.
  { apply Forall_forall. intros row Hrow.
    apply list_elem_of_In, in_map_iff in Hrow as (a & <- & _).
    apply length_map. }
  split; [apply entry_distance_matrix|].
  split.
  { intros Hpos i j d. rewrite entry_distance_matrix.
    destruct (data !! i) as [a|], (data !! j) as [b|]; cbn; try done.
    intros [= <-]. apply Hpos. }
  split.
  { intros Hsym i j. rewrite !entry_distance_matrix.
    destruct (data !! i) as [a|], (data !! j) as [b|]; cbn; try done.
    by rewrite Hsym. }
  split.
  { intros Hdiag i Hi. rewrite entry_distance_matrix.
    destruct (lookup_lt_is_Some_2 data i Hi) as [a ->]. cbn. by rewrite Hdiag. }
  apply normed_unit.
Qed.

(** C9 as the spec words it fails for a table of one city: the only
    distance is 0, so is the maximum, and the normalisation divides 0 by 0,
    which has no value in [0, 1]. *)
Lemma single_city_normalisation_counterexample :
  is_distance taxicab
  /\ compute_physical_distance taxicab taxicab [(0%R, 0%R)]
     = ([[taxicab (0%R, 0%R) (0%R, 0%R)]], [[taxicab (0%R, 0%R) (0%R, 0%R)]])
  /\ taxicab (0%R, 0%R) (0%R, 0%R) = 0%R
  /\ normed_great_circle_distance taxicab taxicab [(0%R, 0%R)]
     = Fault InvalidValue
  /\ normed_vincenty_distance taxicab taxicab [(0%R, 0%R)]
     = Fault InvalidValue.
Proof.
  assert (H0 : taxicab (0%R, 0%R) (0%R, 0%R) = 0%R)
    by apply taxicab_is_distance.
  split; [apply taxicab_is_distance|]. split; [done|]. split; [done|].
  unfold normed_great_circle_distance, normed_vincenty_distance, normed.
  cbn. rewrite H0. by rewrite divide_zero_zero.
Qed.

Lemma physical_distances_normalised_witness :
  exists D',
    normed_vincenty_distance taxicab taxicab [(0%R, 0%R); (1%R, 0%R)] = Fin D'
    /\ length D' = 2%nat
    /\ Np.max (concat D') = Fin 1%R.
Proof.
  destruct (physical_distances_normalised taxicab taxicab
              [(0%R, 0%R); (1%R, 0%R)] _ _ _
              (or_intror (or_introl eq_refl)))
    as (_ & _ & _ & _ & _ & _ & Hnorm).
  destruct Hnorm as (D' & HD' & Hlen & _ & _ & Hmax).
  - apply taxicab_is_distance.
  - exists (0%R, 0%R), (1%R, 0%R). split; [by left|]. split; [by right; left|].
    rewrite taxicab_one_degree. lra.
  - by exists D'.
Defined.

Lemma elasticity_one_rejected_witness :
  exists description,
    description <> EmptyString
    /\ Models.new_model Toy.p_theta (Toy.one_city 1)
       = Models.MalformedParameter description
    /\ Models.construct_and_solve Toy.p_theta Toy.compile Toy.gdp Toy.wage
         Toy.firms Toy.zeros Toy.root (Toy.one_city 1) "hybr" true 1%R
       = Models.MalformedParameter description.
Proof.
  destruct (elasticity_one_rejected Toy.p_theta Toy.compile Toy.gdp Toy.wage
              Toy.firms Toy.zeros Toy.root (Toy.one_city 1) 0 "hybr" true 1%R)
    as (description & Hd & Hnew & Hsolve & _); [reflexivity|].
  by exists description.
Defined.

Lemma numeraire_prepended_witness :
  exists P Y W M,
    P = [1; 1]%R
    /\ (Solvers.system unit Toy.no_equations
          (Solvers.new_solver Toy.two_cities) [1; 3; 5; 1; 1; 6; 10]%R).1
       = concat (A:=R) <$>
           Solvers.call
             (Solvers._numeric_system unit Toy.no_equations
                (Solvers.new_solver Toy.two_cities)).1
             P Y W M [3; 5]%R tt.
Proof.
  destruct (numeraire_prepended Toy.no_equations
              (Solvers.new_solver Toy.two_cities) [1; 3; 5; 1; 1; 6; 10]%R)
    as (P & Y & W & M & HP & _ & _ & _ & Hsys & _); [cbn; lia|cbn; lia|].
  exists P, Y, W, M. split; [exact HP|exact Hsys].
Defined.

(** * Further properties of the code *)

(** ** The slices of [system] and [jacobian] on arbitrary vectors *)

Section Slices.
Import Solvers UnpackFacts.

Lemma unpack_stack (n : Z) (P0 Y W M : list R) :
  1 <= n ->
  Z.of_nat (length P0) = n - 1 -> Z.of_nat (length Y) = n ->
  Z.of_nat (length W) = n ->
  unpack n (P0 ++ Y ++ W ++ M) = (1%R :: P0, Y, W, M).
Proof.
  intros Hn HP HY HW. rewrite unpack_blocks by done.
  assert (E1 : Z.to_nat (n - 1) = length P0) by lia.
  assert (E2 : (Z.to_nat (2 * n - 1) - Z.to_nat (n - 1))%nat = length Y) by lia.
  assert (E3 : (Z.to_nat (3 * n - 1) - Z.to_nat (2 * n - 1))%nat = length W)
    by lia.
  assert (E4 : Z.to_nat (2 * n - 1) = length (P0 ++ Y))
    by (rewrite length_app; lia).
  assert (E5 : Z.to_nat (3 * n - 1) = length (P0 ++ Y ++ W))
    by (rewrite !length_app; lia).
  rewrite E2, E3, E1, E4, E5.
  rewrite (take_app_length P0), (drop_app_length P0), (take_app_length Y).
  replace (P0 ++ Y ++ W ++ M) with ((P0 ++ Y) ++ W ++ M)
    by (by rewrite <- app_assoc).
  rewrite (drop_app_length (P0 ++ Y)), (take_app_length W).
  replace ((P0 ++ Y) ++ W ++ M) with ((P0 ++ Y ++ W) ++ M)
    by (by rewrite <- !app_assoc).
  by rewrite (drop_app_length (P0 ++ Y ++ W)).
Qed.

(** X1.  Stacking blocks of N-1, N, N and any number of entries and slicing
    the result gives the blocks back, the numeraire in front of the prices:
    the layout [guess] writes is the layout [system] and [jacobian] read.
    And the stacked vector is the only one with these blocks. *)
Theorem unpack_of_blocks (n : Z) (P0 Y W M : list R) :
  1 <= n ->
  Z.of_nat (length P0) = n - 1 -> Z.of_nat (length Y) = n ->
  Z.of_nat (length W) = n ->
  unpack n (P0 ++ Y ++ W ++ M) = (1%R :: P0, Y, W, M)
  /\ forall X, unpack n X = (1%R :: P0, Y, W, M) -> X = P0 ++ Y ++ W ++ M.
Proof.
  intros Hn HP HY HW. split; [by apply unpack_stack|].
  intros X HX. apply repack in HX; [|done].
  by rewrite <- HX.
Qed.

(** X2.  The slices never fail and check no dimension: on a vector of any length
    L the blocks are cut as far as the entries reach.  A vector of 4N-3
    entries is cut into blocks of N, N, N and only N-2 entries. *)
Theorem unpack_any_length (n : Z) (X P Y W M : list R) :
  1 <= n -> unpack n X = (P, Y, W, M) ->
  let L := Z.of_nat (length X) in
  Z.of_nat (length P) = 1 + Z.min (n - 1) L
  /\ Z.of_nat (length Y) = Z.max 0 (Z.min n (L - (n - 1)))
  /\ Z.of_nat (length W) = Z.max 0 (Z.min n (L - (2 * n - 1)))
  /\ Z.of_nat (length M) = Z.max 0 (L - (3 * n - 1))
  /\ (2 <= n -> L = 4 * n - 3 ->
      Z.of_nat (length P) = n /\ Z.of_nat (length Y) = n
      /\ Z.of_nat (length W) = n /\ Z.of_nat (length M) = n - 2).
Proof.
  intros Hn. rewrite unpack_blocks by done. intros [= <- <- <- <-]. cbn zeta.
  cbn [length]. rewrite !length_take, !length_drop.
  generalize (length X). intros len.
  assert (E1 : Z.to_nat (n - 1) = (Z.to_nat n - 1)%nat) by lia.
  assert (E2 : Z.to_nat (2 * n - 1) = (2 * Z.to_nat n - 1)%nat) by lia.
  assert (E3 : Z.to_nat (3 * n - 1) = (3 * Z.to_nat n - 1)%nat) by lia.
  rewrite E1, E2, E3.
  assert (En : n = Z.of_nat (Z.to_nat n)) by lia.
  revert En. generalize (Z.to_nat n). intros k ->.
  split; [lia|]. split; [lia|]. split; [lia|]. split; [lia|].
  intros Hk Hlen. assert (len = 4 * k - 3)%nat as -> by lia.
  split; [lia|]. split; [lia|]. split; lia.
Qed.

End Slices.

Lemma unpack_of_blocks_witness :
  Solvers.unpack 2 ([1] ++ [3; 5] ++ [1; 1] ++ [6; 10])%R
  = ([1; 1], [3; 5], [1; 1], [6; 10])%R.
Proof.
  refine (proj1 (unpack_of_blocks 2 [1%R] [3%R; 5%R] [1%R; 1%R] [6%R; 10%R]
                   _ eq_refl eq_refl eq_refl)).
  lia.
Defined.

Lemma unpack_any_length_witness :
  exists P Y W M,
    Solvers.unpack 2 [1; 3; 5; 1; 1]%R = (P, Y, W, M)
    /\ Z.of_nat (length M) = 0.
Proof.
  destruct (Solvers.unpack 2 [1; 3; 5; 1; 1]%R) as [[[P Y] W] M] eqn:HX.
  exists P, Y, W, M. split; [reflexivity|].
  destruct (unpack_any_length 2 _ P Y W M ltac:(lia) HX)
    as (_ & _ & _ & _ & H43).
  destruct H43 as (_ & _ & _ & HM); [lia | cbn; lia | exact HM].
Defined.

(** ** The initial guess at the edges *)

Section GuessEdges.
Import Solvers.
Context {params kwargs : Type}.
Variable lambdify : list expr -> list (list expr) -> numeric_fn params.
Variable gdp wage firms : list R -> list R -> params -> R.
Variable junk : nat -> nat -> R.
Variable root :
  (list R -> outcome (list R)) -> list R ->
  option (list R -> outcome (list (list R))) -> string -> kwargs ->
  OptimizeResult.

Abbreviation guess_at := (guess params gdp wage firms junk).

(** Rounds from index [h] on leave the slots after their last one alone. *)
Lemma guess_loop_after c pops : forall h Y0 W0 M0 Y W M i,
  Solvers.guess_loop params gdp wage firms c h pops (Y0, W0, M0) = (Y, W, M) ->
  (h + length pops <= i)%nat ->
  Y !! i = Y0 !! i /\ W !! i = W0 !! i /\ M !! i = M0 !! i.
Proof.
  induction pops as [|p pops IH]; intros h Y0 W0 M0 Y W M i; cbn.
  - by intros [= -> -> ->].
  - intros Hl Hi. eapply IH in Hl as (-> & -> & ->); [|lia].
    by rewrite !list_lookup_insert_ne by lia.
Qed.

(** The loop reads the parameters of the city object and nothing else of
    it. *)
Lemma guess_loop_params c c' pops : forall h acc,
  city_params c = city_params c' ->
  Solvers.guess_loop params gdp wage firms c h pops acc
  = Solvers.guess_loop params gdp wage firms c' h pops acc.
Proof.
  induction pops as [|p pops IH]; intros h [[Y0 W0] M0] Hc; [done|].
  cbn. rewrite Hc. by apply IH.
Qed.

Lemma lookup_junk k n i :
  (i < n)%nat -> map (junk k) (seq 0 n) !! i = Some (junk k i).
Proof. intros Hi. by rewrite list_lookup_fmap, lookup_seq_lt. Qed.

(** X3.  A model without cities, or with a negative city count, has no guess:
    the price block cannot be allocated, [guess] raises ValueError, and so
    does [solve], which never reaches the root finder. *)
Theorem guess_needs_a_city (s : Solver params) method with_jacobian kw :
  N (model s) <= 0 ->
  guess_at (model s) = Fault ValueError
  /\ solve params lambdify gdp wage firms junk kwargs root s method
       with_jacobian kw = Fault ValueError.
Proof.
  intros HN.
  assert (Hg : guess_at (model s) = Fault ValueError).
  { unfold Solvers.guess, Py.repeat.
    by destruct (Z.ltb_spec (N (model s) - 1) 0); [|lia]. }
  split; [done|]. unfold Solvers.solve. by rewrite Hg.
Qed.

(** X4.  When the population array is shorter than N, the guess is still
    returned, and the entries of every city without a population are what
    [np.empty] found in memory. *)
Theorem guess_short_population (m : Model params) (h : nat) :
  1 <= N m -> (length (population m) <= h)%nat -> Z.of_nat h < N m ->
  exists Y0 W0 M0,
    guess_at m = Fin (replicate (Z.to_nat (N m - 1)) 1%R ++ Y0 ++ W0 ++ M0)
    /\ Y0 !! h = Some (junk 0 h)
    /\ W0 !! h = Some (junk 1 h)
    /\ M0 !! h = Some (junk 2 h).
Proof.
  intros HN Hpop Hh.
  destruct (guess_fin gdp wage firms junk m HN) as (Y0 & W0 & M0 & Hg & Hl).
  exists Y0, W0, M0. split; [done|].
  eapply (guess_loop_after _ _ _ _ _ _ _ _ _ h) in Hl as (-> & -> & ->).
  - rewrite !lookup_junk by lia. done.
  - rewrite PyFacts.slice_prefix by lia. rewrite length_take. cbn. lia.
Qed.

(** X5.  Population entries from position N on are never read: two models that
    agree on the city count, the parameters and the first N populations have
    the same guess. *)
Theorem guess_reads_first_N (m m' : Model params) :
  0 <= N m -> N m' = N m -> model_params m' = model_params m ->
  take (Z.to_nat (N m)) (population m') = take (Z.to_nat (N m)) (population m) ->
  guess_at m' = guess_at m.
Proof.
  intros HN HN' Hp Hpop. unfold Solvers.guess. rewrite HN'.
  destruct (Py.repeat 1%R (N m - 1)) as [P0|]; [|done]. cbn.
  destruct (np_empty junk 0 (N m)) as [Y0|]; [|done]. cbn.
  destruct (np_empty junk 1 (N m)) as [W0|]; [|done]. cbn.
  destruct (np_empty junk 2 (N m)) as [M0|]; [|done]. cbn.
  rewrite !PyFacts.slice_prefix by done. rewrite Hpop.
  by rewrite (guess_loop_params (city m') (city m)) by done.
Qed.

(** X6.  The first point at which the residual is evaluated: for a model
    with at least one city the guess unpacks into a price array of N ones
    and three blocks of N entries each, which hold, for every city [h] below
    N with a population entry, the single-city GDP, wage and number of firms
    at price 1 and the population of [h]; and the residual at the guess is
    the compiled system called with exactly these four arrays. *)
Theorem system_at_guess (s : Solver params) :
  1 <= N (model s) ->
  exists g Y0 W0 M0,
    guess_at (model s) = Fin g
    /\ unpack (N (model s)) g
       = (replicate (Z.to_nat (N (model s))) 1%R, Y0, W0, M0)
    /\ Z.of_nat (length Y0) = N (model s)
    /\ Z.of_nat (length W0) = N (model s)
    /\ Z.of_nat (length M0) = N (model s)
    /\ (forall (h : nat) (p : R),
          Z.of_nat h < N (model s) -> population (model s) !! h = Some p ->
          Y0 !! h = Some (gdp [1%R] [p] (model_params (model s)))
          /\ W0 !! h = Some (wage [1%R] [p] (model_params (model s)))
          /\ M0 !! h = Some (firms [1%R] [p] (model_params (model s))))
    /\ (system params lambdify s g).1
       = concat (A:=R) <$>
           call (_numeric_system params lambdify s).1
             (replicate (Z.to_nat (N (model s))) 1%R) Y0 W0 M0
             (population (model s)) (model_params (model s)).
Proof.
  intros HN.
  destruct (guess_fin gdp wage firms junk (model s) HN)
    as (Y0 & W0 & M0 & Hg & Hl).
  pose proof Hl as Hlen. apply guess_loop_length in Hlen as (HY & HW & HM).
  rewrite !length_map, !length_seq in HY, HW, HM.
  assert (Hu : unpack (N (model s))
                 (replicate (Z.to_nat (N (model s) - 1)) 1%R ++ Y0 ++ W0 ++ M0)
               = (replicate (Z.to_nat (N (model s))) 1%R, Y0, W0, M0)).
  { rewrite unpack_stack; rewrite ?length_replicate; try lia.
    replace (Z.to_nat (N (model s))) with (S (Z.to_nat (N (model s) - 1)))
      by lia.
    done. }
  eexists _, Y0, W0, M0. split; [done|]. split; [done|].
  split; [lia|]. split; [lia|]. split; [lia|].
  split; [|by apply system_value].
  intros h p Hh Hp. rewrite PyFacts.slice_prefix in Hl by lia.
  eapply (guess_loop_at _ _ _ _ _ 0%nat _ _ _ _ _ _ h p) in Hl;
    [ exact Hl | by (rewrite lookup_take_lt by lia) | .. ];
    rewrite ?length_map, ?length_seq; lia.
Qed.

End GuessEdges.

Lemma guess_needs_a_city_witness :
  Solvers.guess unit Toy.gdp Toy.wage Toy.firms Toy.zeros no_cities
  = Fault ValueError.
Proof.
  apply (guess_needs_a_city Toy.no_equations Toy.gdp Toy.wage Toy.firms
           Toy.zeros Toy.root (Solvers.new_solver no_cities) "hybr" true 1%R).
  cbn. lia.
Defined.

Lemma guess_short_population_witness :
  exists Y0 W0 M0,
    Solvers.guess unit Toy.gdp Toy.wage Toy.firms Toy.zeros lone_population
    = Fin (replicate 1 1%R ++ Y0 ++ W0 ++ M0)
    /\ Y0 !! 1%nat = Some (Toy.zeros 0 1).
Proof.
  destruct (guess_short_population Toy.gdp Toy.wage Toy.firms Toy.zeros
              lone_population 1) as (Y0 & W0 & M0 & Hg & HY & _);
    [cbn; lia | cbn; lia | cbn; lia |].
  by exists Y0, W0, M0.
Defined.

Lemma guess_reads_first_N_witness :
  Solvers.guess unit Toy.gdp Toy.wage Toy.firms Toy.zeros
    {| Solvers.N := 2; Solvers.model_params := tt;
       Solvers.physical_distances := [];
       Solvers.population := [3%R; 5%R; 8%R]; Solvers._symbolic_args := [];
       Solvers._symbolic_jacobian := []; Solvers._symbolic_system := [] |}
  = Solvers.guess unit Toy.gdp Toy.wage Toy.firms Toy.zeros Toy.two_cities.
Proof.
  apply (guess_reads_first_N Toy.gdp Toy.wage Toy.firms Toy.zeros
           Toy.two_cities); try reflexivity. cbn. lia.
Defined.

Lemma system_at_guess_witness :
  exists g Y0 W0 M0,
    Solvers.guess unit Toy.gdp Toy.wage Toy.firms Toy.zeros Toy.two_cities
    = Fin g
    /\ Solvers.unpack 2 g = ([1; 1]%R, Y0, W0, M0)
    /\ Z.of_nat (length M0) = 2
    /\ Y0 !! 1%nat = Some (Toy.gdp [1%R] [5%R] tt)
    /\ M0 !! 1%nat = Some (Toy.firms [1%R] [5%R] tt).
Proof.
  destruct (system_at_guess Toy.no_equations Toy.gdp Toy.wage Toy.firms
              Toy.zeros (Solvers.new_solver Toy.two_cities))
    as (g & Y0 & W0 & M0 & Hg & Hu & _ & _ & HM & Hval & _); [cbn; lia|].
  exists g, Y0, W0, M0. split; [exact Hg|]. split; [exact Hu|].
  split; [exact HM|].
  destruct (Hval 1%nat 5%R) as (HY1 & _ & HM1); [cbn; lia|reflexivity|].
  by split.
Defined.

(** ** The cache does not change what is computed *)

Section CacheTransparency.
Import Solvers.
Context {params : Type}.
Variable lambdify : list expr -> list (list expr) -> numeric_fn params.

Lemma coherent_new m : coherent lambdify (new_solver m).
Proof. by split. Qed.

Lemma model_step (s : Solver params) a : model (step params lambdify s a) = model s.
Proof.
  destruct a; cbn; unfold _numeric_jacobian, _numeric_system; by repeat case_match.
Qed.

Lemma coherent_step (s : Solver params) a :
  coherent lambdify s -> coherent lambdify (step params lambdify s a).
Proof.
  intros Hc. destruct a; cbn; unfold _numeric_jacobian, _numeric_system.
  - destruct (__numeric_jacobian s) eqn:HJ; [exact Hc|].
    destruct Hc as [Hs Hj]. split; cbn; [exact Hs|]. by intros fn [= <-].
  - destruct (__numeric_system s) eqn:HS; [exact Hc|].
    destruct Hc as [Hs Hj]. split; cbn; [|exact Hj]. by intros fn [= <-].
  - by split.
Qed.

Lemma coherent_run history : forall s : Solver params,
  coherent lambdify s ->
  coherent lambdify (run params lambdify s history)
  /\ model (run params lambdify s history) = model s.
Proof.
  induction history as [|a history IH]; intros s Hs; [done|].
  change (run params lambdify s (a :: history))
    with (run params lambdify (step params lambdify s a) history).
  destruct (IH _ (coherent_step s a Hs)) as [Hc Hm].
  split; [done|]. by rewrite Hm, model_step.
Qed.

Lemma coherent_call (s : Solver params) :
  coherent lambdify s ->
  call (_numeric_system params lambdify s).1
  = lambdify (_symbolic_args (model s)) (_symbolic_system (model s))
  /\ call (_numeric_jacobian params lambdify s).1
     = lambdify (_symbolic_args (model s)) (_symbolic_jacobian (model s)).
Proof.
  intros [Hs Hj]. unfold _numeric_jacobian, _numeric_system. split.
  - destruct (__numeric_system s) as [fn|]; [by apply Hs|done].
  - destruct (__numeric_jacobian s) as [fn|]; [by apply Hj|done].
Qed.

(** X7.  Whatever reads and clears a solver has gone through since it was made,
    its residual and its Jacobian are those of the functions [lambdify]
    builds from the model's system and Jacobian, at the four blocks of [X]:
    caching changes when the functions are built, never what they return. *)
Theorem cache_is_transparent (m : Model params) (history : list access)
    (X : list R) :
  let s := run params lambdify (new_solver m) history in
  let '(P, Y, W, M) := unpack (N m) X in
  (system params lambdify s X).1
  = concat (A:=R) <$>
      lambdify (_symbolic_args m) (_symbolic_system m)
        P Y W M (population m) (model_params m)
  /\ (jacobian params lambdify s X).1
     = lambdify (_symbolic_args m) (_symbolic_jacobian m)
         P Y W M (population m) (model_params m).
Proof.
  cbn zeta. destruct (unpack (N m) X) as [[[P Y] W] M] eqn:HX.
  destruct (coherent_run history _ (coherent_new m)) as [Hc Hm].
  destruct (coherent_call _ Hc) as [Hs Hj]. cbn [model new_solver] in Hm.
  rewrite Hm in Hs, Hj. split.
  - rewrite (system_value lambdify _ X P Y W M) by (by rewrite Hm).
    by rewrite Hs, Hm.
  - rewrite (jacobian_value lambdify _ X P Y W M) by (by rewrite Hm).
    by rewrite Hj, Hm.
Qed.

End CacheTransparency.

(** ** The equations subscript no city beyond the last *)

Section Indices.

Lemma of_lookup_in_range {A} (l : list A) i :
  (i < length l)%nat -> of_lookup (l !! i) <> Fault IndexError.
Proof.
  intros Hi. destruct (lookup_lt_is_Some_2 l i Hi) as [a ->]. done.
Qed.

Lemma divide_no_index_error a b : Np.divide a b <> Fault IndexError.
Proof.
  unfold Np.divide. by destruct (Req_dec_T b 0), (Req_dec_T a 0).
Qed.

Lemma power_no_index_error a b : Np.power a b <> Fault IndexError.
Proof. unfold Np.power. by repeat case_match. Qed.

(** On arrays of at least [n] entries an expression whose subscripts are
    below [n] is evaluated without an IndexError. *)
Lemma eval_in_range n v e :
  sized n v -> indices_below n e = true -> eval v e <> Fault IndexError.
Proof.
  intros (Ht & HS & HY & HP & HW & HM & Hd & Hrows).
  induction e as [| | | | h j | | | | | |a IHa b IHb|a IHa b IHb|a IHa b IHb
                  |a IHa b IHb|a IHa b IHb|a IHa]; cbn [indices_below eval];
    try done;
    try (intros Hj%Nat.ltb_lt; apply of_lookup_in_range; lia);
    try (intros [Ha Hb]%andb_prop; specialize (IHa Ha); specialize (IHb Hb);
         destruct (eval v a) as [x|ea]; cbn; [|by intros [= ->]];
         destruct (eval v b) as [y|eb]; cbn; [|by intros [= ->]];
         first [done | apply divide_no_index_error | apply power_no_index_error]).
  - intros [Hh%Nat.ltb_lt Hj%Nat.ltb_lt]%andb_prop.
    destruct (lookup_lt_is_Some_2 (v_delta v) h) as [row Hrow]; [lia|].
    rewrite Hrow. cbn. apply of_lookup_in_range.
    rewrite Forall_forall in Hrows.
    specialize (Hrows row (list_elem_of_lookup_2 _ _ _ Hrow)). lia.
  - intros Ha. specialize (IHa Ha).
    destruct (eval v a) as [x|ea]; cbn; [done|by intros [= ->]].
Qed.

Lemma indices_below_py_sum n terms :
  forallb (indices_below n) terms = true -> indices_below n (py_sum terms) = true.
Proof.
  unfold py_sum. generalize (Int 0) (eq_refl : indices_below n (Int 0) = true).
  induction terms as [|t terms IH]; intros acc Hacc; cbn; [done|].
  intros [Ht Hts]%andb_prop. apply IH; [|done]. cbn. by rewrite Hacc, Ht.
Qed.

Lemma forallb_map_range {A} (p : A -> bool) (g : nat -> A) n :
  (forall j, (j < n)%nat -> p (g j) = true) ->
  forallb p (map g (range n)) = true.
Proof.
  intros Hg. apply forallb_forall. intros x (j & <- & Hj)%in_map_iff.
  apply Hg. apply in_seq in Hj. lia.
Qed.

Ltac below :=
  unfold trade, revenue, labor_demand, quantity_demand, relative_price,
    real_gdp, optimal_price, mark_up, marginal_costs, labor_productivity,
    resource_constraint;
  cbn [indices_below];
  repeat (apply andb_true_intro; split);
  first [done | by apply Nat.ltb_lt].

Lemma indices_below_optimal_price n h j :
  (h < n)%nat -> (j < n)%nat -> indices_below n (optimal_price h j) = true.
Proof. intros Hh Hj. below. Qed.

Lemma indices_below_trade n h j :
  (h < n)%nat -> (j < n)%nat -> indices_below n (trade h j) = true.
Proof. intros Hh Hj. below. Qed.

Lemma indices_below_labor_demand n h j :
  (h < n)%nat -> (j < n)%nat ->
  indices_below n (labor_demand (quantity_demand (optimal_price h j) j) h j)
  = true.
Proof. intros Hh Hj. below. Qed.

Lemma indices_below_revenue n h j :
  (h < n)%nat -> (j < n)%nat ->
  indices_below n (revenue (optimal_price h j)
                     (quantity_demand (optimal_price h j) j)) = true.
Proof. intros Hh Hj. below. Qed.

Lemma indices_below_cost n h j :
  (h < n)%nat -> (j < n)%nat ->
  indices_below n (cost (quantity_demand (optimal_price h j) j) h j) = true.
Proof. intros Hh Hj. unfold cost. below. Qed.

(** The three residuals of a city below [n], and its total profit,
    subscript cities below [n] only. *)
Lemma indices_below_residuals n h :
  (h < n)%nat ->
  indices_below n (goods_market_clearing n h) = true
  /\ indices_below n (labor_market_clearing n h) = true
  /\ indices_below n (resource_constraint h) = true
  /\ indices_below n (total_profits n h) = true.
Proof.
  intros Hh. split; [|split; [|split]].
  - unfold goods_market_clearing, total_exports, total_imports.
    cbn [indices_below]. apply andb_true_intro. split.
    + apply indices_below_py_sum, forallb_map_range. intros j Hj.
      by apply (indices_below_trade n h j).
    + apply indices_below_py_sum, forallb_map_range. intros j Hj.
      by apply (indices_below_trade n j h).
  - unfold labor_market_clearing, total_labor_demand. cbn [indices_below].
    apply andb_true_intro. split; [by apply Nat.ltb_lt|].
    apply indices_below_py_sum, forallb_map_range. intros j Hj.
    by apply indices_below_labor_demand.
  - below.
  - unfold total_profits, total_revenue, total_cost.
    cbn [indices_below]. apply andb_true_intro. split.
    + apply indices_below_py_sum, forallb_map_range. intros j Hj.
      by apply indices_below_revenue.
    + apply indices_below_py_sum, forallb_map_range. intros j Hj.
      by apply indices_below_cost.
Qed.

(** X8.  Evaluated on arrays of at least [n] entries (and a distance matrix of
    at least n x n), the three residuals and the total profit of every city
    below [n], built for [n] cities, raise no IndexError; and the resource
    constraint of a city beyond the end of the GDP array raises it. *)
Theorem equations_index_errors (n : nat) (v : env) :
  (sized n v ->
   forall h, (h < n)%nat ->
     eval v (goods_market_clearing n h) <> Fault IndexError
     /\ eval v (labor_market_clearing n h) <> Fault IndexError
     /\ eval v (resource_constraint h) <> Fault IndexError
     /\ eval v (total_profits n h) <> Fault IndexError)
  /\ (forall h, (length (v_Y v) <= h)%nat ->
        eval v (resource_constraint h) = Fault IndexError).
Proof.
  split.
  - intros Hv h Hh.
    destruct (indices_below_residuals n h Hh) as (Hg & Hl & Hr & Hp).
    repeat split; by apply (eval_in_range n).
  - intros h Hh. unfold resource_constraint. cbn [eval].
    by rewrite (lookup_ge_None_2 (v_Y v) h) by lia.
Qed.

End Indices.

Example two_city_point_sized : sized 2 two_city_point.
Proof.
  unfold sized. cbn. repeat split; try lia. repeat constructor; cbn; lia.
Qed.

(** ** Sums of expressions and the balance of trade *)

Section Trade.
#[local] Open Scope R_scope.
#[local] Arguments Np.divide : simpl never.
#[local] Arguments Np.power : simpl never.

Lemma Rsum_cons x l : Rsum (x :: l) = x + Rsum l.
Proof. done. Qed.

Lemma Rsum_plus {A} (a b : A -> R) l :
  Rsum (map (fun h => a h + b h) l) = Rsum (map a l) + Rsum (map b l).
Proof.
  induction l as [|h l IH]; cbn [map]; [unfold Rsum; cbn; lra|].
  rewrite !Rsum_cons, IH. lra.
Qed.

Lemma Rsum_minus {A} (a b : A -> R) l :
  Rsum (map (fun h => a h - b h) l) = Rsum (map a l) - Rsum (map b l).
Proof.
  induction l as [|h l IH]; cbn [map]; [unfold Rsum; cbn; lra|].
  rewrite !Rsum_cons, IH. lra.
Qed.

Lemma Rsum_zero {A} (l : list A) : Rsum (map (fun _ => 0) l) = 0.
Proof.
  induction l as [|h l IH]; cbn [map]; [done|]. rewrite Rsum_cons, IH. lra.
Qed.

(** A double sum may be taken in either order. *)
Lemma Rsum_swap {A B} (T : A -> B -> R) l1 l2 :
  Rsum (map (fun h => Rsum (map (fun j => T h j) l2)) l1)
  = Rsum (map (fun j => Rsum (map (fun h => T h j) l1)) l2).
Proof.
  induction l1 as [|h l1 IH]; cbn [map].
  - by rewrite Rsum_zero.
  - rewrite Rsum_cons, IH, <- Rsum_plus. done.
Qed.

Lemma eval_foldl_add v (g : nat -> expr) (G : nat -> R) l : forall acc x,
  eval v acc = Fin x ->
  (forall j, In j l -> eval v (g j) = Fin (G j)) ->
  eval v (foldl Add acc (map g l)) = Fin (x + Rsum (map G l)).
Proof.
  induction l as [|a l IH]; intros acc x Hacc Hg; cbn [map foldl].
  - rewrite Hacc. unfold Rsum. cbn. f_equal. lra.
  - rewrite (IH _ (x + G a)).
    + rewrite Rsum_cons. f_equal. lra.
    + cbn [eval]. rewrite Hacc, (Hg a) by (by left). done.
    + intros j Hj. apply Hg. by right.
Qed.

(** Python's [sum] of expressions with finite values has the sum of the
    values. *)
Lemma eval_py_sum v (g : nat -> expr) (G : nat -> R) n :
  (forall j, (j < n)%nat -> eval v (g j) = Fin (G j)) ->
  eval v (py_sum (map g (range n))) = Fin (Rsum (map G (range n))).
Proof.
  intros Hg. unfold py_sum.
  rewrite (eval_foldl_add v g G (range n) (Int 0) 0).
  - f_equal. lra.
  - done.
  - intros j Hj. apply Hg. apply in_seq in Hj. lia.
Qed.

(** X9.  The goods-market equations are not independent: wherever the revenue of
    every city on every good has a finite value, each of the n equations has
    a finite residual, and the n residuals add up to zero. *)
Theorem goods_markets_balance (n : nat) (v : env) :
  (forall h j, (h < n)%nat -> (j < n)%nat -> finite (eval v (trade h j))) ->
  exists r : nat -> R,
    (forall h, (h < n)%nat -> eval v (goods_market_clearing n h) = Fin (r h))
    /\ Rsum (map r (range n)) = 0.
Proof.
  intros Hfin. set (T := fun h j => value (eval v (trade h j))).
  assert (HT : forall h j, (h < n)%nat -> (j < n)%nat ->
                 eval v (trade h j) = Fin (T h j)).
  { intros h j Hh Hj. unfold T. by destruct (Hfin h j Hh Hj) as [x ->]. }
  exists (fun h => Rsum (map (fun j => T h j) (range n))
                   - Rsum (map (fun j => T j h) (range n))).
  split.
  - intros h Hh. unfold goods_market_clearing.
    change (total_exports n h) with (py_sum (map (fun j => trade h j) (range n))).
    change (total_imports n h) with (py_sum (map (fun j => trade j h) (range n))).
    cbn [eval].
    rewrite (eval_py_sum v (fun j => trade h j) (fun j => T h j)) by auto.
    rewrite (eval_py_sum v (fun j => trade j h) (fun j => T j h)) by auto.
    done.
  - rewrite Rsum_minus, (Rsum_swap T). lra.
Qed.

Lemma eval_marginal_costs v h j w row d :
  v_W v !! h = Some w -> v_delta v !! h = Some row -> row !! j = Some d ->
  d <> 0 -> v_phi v <> 0 ->
  eval v (marginal_costs h j) = Fin (w / (v_phi v / d)).
Proof.
  intros Hw Hrow Hd Hd0 Hphi. unfold marginal_costs.
  change (eval v (nominal_wage h / labor_productivity h j)%E)
    with (x ← of_lookup (v_W v !! h);
          y ← eval v (labor_productivity h j); Np.divide x y).
  rewrite (eval_labor_productivity _ _ _ _ _ Hrow Hd Hd0), Hw. cbn.
  apply NpFacts.divide_fin. intros Hz.
  apply Rmult_integral in Hz as [Hz|Hz]; [done|].
  by apply Rinv_neq_0_compat in Hz.
Qed.

(** The optimal price at an elasticity other than 1. *)
Lemma eval_optimal_price v h j t w row d :
  v_theta v !! j = Some t -> v_W v !! h = Some w ->
  v_delta v !! h = Some row -> row !! j = Some d ->
  t <> 1 -> d <> 0 -> v_phi v <> 0 ->
  eval v (optimal_price h j) = Fin (t / (t - 1) * (w / (v_phi v / d))).
Proof.
  intros Ht Hw Hrow Hd Ht1 Hd0 Hphi. unfold optimal_price.
  change (eval v (mark_up j * marginal_costs h j)%E)
    with (a ← eval v (mark_up j); b ← eval v (marginal_costs h j); Fin (a * b)).
  rewrite (eval_mark_up v j t Ht Ht1).
  by rewrite (eval_marginal_costs v h j w row d).
Qed.

End Trade.

Section Prices.
#[local] Open Scope R_scope.
#[local] Arguments Np.divide : simpl never.
#[local] Arguments Np.power : simpl never.

(** The revenue term at a positive optimal price. *)
Lemma eval_trade v h j t w row d m Pj Yj :
  v_theta v !! j = Some t -> v_W v !! h = Some w ->
  v_delta v !! h = Some row -> row !! j = Some d ->
  v_M v !! h = Some m -> v_P v !! j = Some Pj -> v_Y v !! j = Some Yj ->
  t <> 1 -> d <> 0 -> v_phi v <> 0 -> 0 < Pj ->
  0 < t / (t - 1) * (w / (v_phi v / d)) ->
  finite (eval v (trade h j)).
Proof.
  intros Ht Hw Hrow Hd Hm HP HY Ht1 Hd0 Hphi HP0 Hp0.
  pose proof (eval_optimal_price v h j t w row d Ht Hw Hrow Hd Ht1 Hd0 Hphi)
    as Hp.
  pose proof (eval_quantity_demand v (optimal_price h j) j _ t Pj Yj
                Hp Ht HP HY Hp0 HP0) as Hq.
  unfold trade, revenue. cbn zeta.
  change (eval v (number_firms h
                  * (optimal_price h j
                     * quantity_demand (optimal_price h j) j))%E)
    with (a ← of_lookup (v_M v !! h);
          b ← (p ← eval v (optimal_price h j);
               q ← eval v (quantity_demand (optimal_price h j) j);
               Fin (p * q));
          Fin (a * b)).
  rewrite Hm, Hp, Hq. cbn. by eexists.
Qed.

(** No whole number lies strictly between -1 and 0. *)
Lemma not_whole y : -1 < y < 0 -> IZR (Int_part y) <> y.
Proof.
  intros [Hlo Hhi] Hy. rewrite <- Hy in Hlo, Hhi.
  apply lt_IZR in Hlo, Hhi. lia.
Qed.

(** X10.  Let the marginal cost of good [j] in city [h] and the price level
    of city [j] be positive, and let city [j] have a nominal GDP.  With an
    elasticity above 1 the markup is above 1 and the optimal price above
    marginal cost.  With an elasticity strictly between 0 and 1 the optimal
    price is negative, and the quantity demanded at it is the power of a
    negative number to a fractional exponent: an invalid value. *)
Theorem optimal_price_and_elasticity v h j t c Pj Yj :
  v_theta v !! j = Some t -> eval v (marginal_costs h j) = Fin c ->
  v_P v !! j = Some Pj -> v_Y v !! j = Some Yj -> 0 < c -> 0 < Pj ->
  (1 < t ->
   exists mu p,
     eval v (mark_up j) = Fin mu /\ 1 < mu
     /\ eval v (optimal_price h j) = Fin p /\ c < p)
  /\ (0 < t < 1 ->
      exists p,
        eval v (optimal_price h j) = Fin p /\ p < 0
        /\ eval v (real_gdp j) = Fin (Yj / Pj)
        /\ eval v (quantity_demand (optimal_price h j) j) = Fault InvalidValue).
Proof.
  intros Ht Hc HP HY Hc0 HP0.
  assert (Hprice : t <> 1 ->
            eval v (optimal_price h j) = Fin (t / (t - 1) * c)).
  { intros Ht1. unfold optimal_price.
    change (eval v (mark_up j * marginal_costs h j)%E)
      with (a ← eval v (mark_up j); b ← eval v (marginal_costs h j);
            Fin (a * b)).
    by rewrite (eval_mark_up v j t Ht Ht1), Hc. }
  split.
  - intros Ht1.
    assert (Hmu : 1 < t / (t - 1)).
    { apply Rmult_lt_reg_r with (t - 1); [lra|].
      unfold Rdiv. rewrite Rmult_assoc, Rinv_l by lra. lra. }
    exists (t / (t - 1)), (t / (t - 1) * c).
    split; [apply eval_mark_up; [done|lra]|]. split; [done|].
    split; [apply Hprice; lra|]. nra.
  - intros [Ht0 Ht1].
    assert (Hmu : t / (t - 1) < 0).
    { apply Rmult_lt_reg_r with (1 - t); [lra|].
      replace (t / (t - 1) * (1 - t)) with (- t) by (field; lra). lra. }
    assert (Hp : t / (t - 1) * c < 0) by nra.
    exists (t / (t - 1) * c). split; [apply Hprice; lra|]. split; [done|].
    split.
    { unfold real_gdp. cbn [eval]. rewrite HY, HP. cbn.
      apply NpFacts.divide_fin. lra. }
    unfold quantity_demand, relative_price.
    change (eval v (((optimal_price h j / price_level j)
                       ** (- elasticity_substitution j)) * real_gdp j)%E)
      with (a ← (x ← (p ← eval v (optimal_price h j);
                      q ← of_lookup (v_P v !! j); Np.divide p q);
                 y ← (z ← of_lookup (v_theta v !! j); Fin (- z));
                 Np.power x y);
            b ← eval v (real_gdp j); Fin (a * b)).
    rewrite Hprice, HP, Ht by lra. cbn.
    rewrite NpFacts.divide_fin by lra. cbn.
    assert (Hneg : t / (t - 1) * c / Pj < 0).
    { apply Rmult_lt_reg_r with Pj; [done|].
      unfold Rdiv at 1. rewrite Rmult_assoc, Rinv_l by lra. lra. }
    unfold Np.power.
    destruct (Rlt_dec 0 (t / (t - 1) * c / Pj)) as [|_]; [lra|].
    destruct (Req_dec_T (t / (t - 1) * c / Pj) 0) as [|_]; [lra|].
    destruct (Req_dec_T (IZR (Int_part (- t))) (- t)) as [Hw|_]; [|done].
    exfalso. revert Hw. apply not_whole. lra.
Qed.

(** X11.  Quantity demanded is homogeneous of degree zero: scaling the price of
    the good, the price level and the nominal GDP of city [j] by one positive
    factor leaves it unchanged. *)
Theorem quantity_demand_homogeneous v v' j k t Pj Yj price price' p :
  v_theta v !! j = Some t -> v_theta v' !! j = Some t ->
  v_P v !! j = Some Pj -> v_P v' !! j = Some (k * Pj) ->
  v_Y v !! j = Some Yj -> v_Y v' !! j = Some (k * Yj) ->
  eval v price = Fin p -> eval v' price' = Fin (k * p) ->
  0 < k -> 0 < p -> 0 < Pj ->
  eval v' (quantity_demand price' j) = eval v (quantity_demand price j).
Proof.
  intros Ht Ht' HP HP' HY HY' Hp Hp' Hk Hp0 HP0.
  rewrite (eval_quantity_demand v price j p t Pj Yj) by done.
  rewrite (eval_quantity_demand v' price' j (k * p) t (k * Pj) (k * Yj))
    by (try done; nra).
  f_equal. replace (k * p / (k * Pj)) with (p / Pj) by (field; lra).
  replace (k * Yj / (k * Pj)) with (Yj / Pj) by (field; lra). done.
Qed.

End Prices.

Lemma goods_markets_balance_witness :
  exists r : nat -> R,
    eval two_city_point (goods_market_clearing 2 0) = Fin (r 0%nat)
    /\ eval two_city_point (goods_market_clearing 2 1) = Fin (r 1%nat)
    /\ Rsum (map r (range 2)) = 0%R.
Proof.
  destruct (goods_markets_balance 2 two_city_point) as (r & Hr & Hsum).
  - intros h j Hh Hj.
    assert (Hhj : (h = 0%nat \/ h = 1%nat) /\ (j = 0%nat \/ j = 1%nat)) by lia.
    destruct Hhj as [[-> | ->] [-> | ->]];
      apply (eval_trade two_city_point _ _ 2%R 1%R [1%R; 1%R] 1%R 1%R 1%R 1%R);
      cbn; first [reflexivity | lra].
  - exists r. split; [apply Hr; lia|]. split; [apply Hr; lia|exact Hsum].
Defined.

Lemma optimal_price_and_elasticity_witness :
  (exists mu p,
     eval two_city_point (mark_up 1) = Fin mu /\ (1 < mu)%R
     /\ eval two_city_point (optimal_price 0 1) = Fin p
     /\ (1 / (1 / 1) < p)%R)
  /\ (exists p,
        eval (one_city_point (1 / 2) 1 1 1) (optimal_price 0 0) = Fin p
        /\ (p < 0)%R
        /\ eval (one_city_point (1 / 2) 1 1 1)
             (quantity_demand (optimal_price 0 0) 0) = Fault InvalidValue).
Proof.
  split.
  - destruct (optimal_price_and_elasticity two_city_point 0 1 2%R
                (1 / (1 / 1))%R 1%R 1%R) as [Habove _].
    + reflexivity.
    + apply (eval_marginal_costs two_city_point 0 1 1%R [1%R; 1%R] 1%R);
        cbn; first [reflexivity | lra].
    + reflexivity.
    + reflexivity.
    + lra.
    + lra.
    + apply Habove. lra.
  - destruct (optimal_price_and_elasticity (one_city_point (1 / 2) 1 1 1)
                0 0 (1 / 2)%R (1 / (1 / 1))%R 1%R 1%R) as [_ Hbelow].
    + reflexivity.
    + apply (eval_marginal_costs (one_city_point (1 / 2) 1 1 1) 0 0 1%R
               [1%R] 1%R); cbn; first [reflexivity | lra].
    + reflexivity.
    + reflexivity.
    + lra.
    + lra.
    + destruct Hbelow as (p & Hp & Hneg & _ & Hq); [lra|].
      by exists p.
Defined.

Lemma quantity_demand_homogeneous_witness :
  eval (priced_point 2 2) (quantity_demand (Int 6) 0)
  = eval (priced_point 1 1) (quantity_demand (Int 3) 0).
Proof.
  apply (quantity_demand_homogeneous (priced_point 1 1) (priced_point 2 2)
           0 2%R 2%R 1%R 1%R (Int 3) (Int 6) 3%R);
    cbn; first [reflexivity | f_equal; lra | lra].
Defined.

(** ** When the normalisation has a result *)

Section Normalisation.
#[local] Open Scope R_scope.
Variable metric : coords -> coords -> R.

Lemma normed_empty : normed (distance_matrix metric []) = Fault ValueError.
Proof. done. Qed.

(** A table of cities that are all at distance 0 from each other. *)
Lemma normed_all_zero data :
  data <> [] ->
  (forall a b, In a data -> In b data -> metric a b = 0) ->
  normed (distance_matrix metric data) = Fault InvalidValue.
Proof.
  intros Hne Hzero.
  assert (Hmax : Np.max (concat (distance_matrix metric data)) = Fin 0).
  { destruct data as [|a data]; [done|]. apply max_unique.
    - apply in_distance_matrix. exists a, a.
      split; [by left|]. split; [by left|]. symmetry. apply Hzero; by left.
    - intros z (a' & b' & Ha' & Hb' & ->)%in_distance_matrix.
      rewrite Hzero by done. lra. }
  unfold normed. rewrite Hmax. destruct data as [|a data]; [done|].
  cbn. rewrite (Hzero a a) by (by left). by rewrite divide_zero_zero.
Qed.

(** If the normalisation has a result, some two cities are at a positive
    distance. *)
Lemma normalisation_positive data :
  (forall a b, 0 <= metric a b) ->
  forall D', normed (distance_matrix metric data) = Fin D' ->
  exists a b, In a data /\ In b data /\ 0 < metric a b.
Proof.
  intros Hpos D' HD'.
  destruct (Classical_Prop.classic (exists a b, In a data /\ In b data /\ 0 < metric a b))
    as [|Hnone]; [done|].
  assert (Hzero : forall a b, In a data -> In b data -> metric a b = 0).
  { intros a b Ha Hb. destruct (Rle_lt_or_eq_dec _ _ (Hpos a b)) as [Hlt|<-];
      [|done]. destruct Hnone. eauto. }
  destruct data as [|c data]; [by rewrite normed_empty in HD'|].
  by rewrite normed_all_zero in HD'.
Qed.

(** X14.  The three outcomes of the normalisation of a distance matrix with
    non-negative entries: an empty table has no maximum (ValueError); a
    table whose cities are all at distance 0 from each other has maximum 0
    and divides 0 by 0 (an invalid value); and the normalisation has a
    result exactly when some two cities are at a positive distance. *)
Theorem normalisation_outcome (data : list coords) :
  (forall a b, 0 <= metric a b) ->
  (data = [] -> normed (distance_matrix metric data) = Fault ValueError)
  /\ (data <> [] ->
      (forall a b, In a data -> In b data -> metric a b = 0) ->
      normed (distance_matrix metric data) = Fault InvalidValue)
  /\ ((exists D', normed (distance_matrix metric data) = Fin D')
      <-> exists a b, In a data /\ In b data /\ 0 < metric a b).
Proof.
  intros Hpos. split; [by intros ->|]. split; [apply normed_all_zero|].
  split.
  - intros [D' HD']. by apply (normalisation_positive data Hpos D').
  - intros (a & b & Ha & Hb & Hab).
    assert (Hin : In (metric a b) (concat (distance_matrix metric data)))
      by (apply in_distance_matrix; eauto).
    destruct (max_fin _ _ Hin) as [m Hm].
    destruct (max_spec _ _ Hm) as [_ Hub]. specialize (Hub _ Hin).
    eexists. apply (normed_fin _ m); [done|lra].
Qed.

(** X15.  A normalised distance matrix is the raw matrix with every entry divided
    by the positive maximum, and keeps the symmetry and the zero diagonal. *)
Theorem normed_entries (data : list coords) (D' : list (list R)) :
  is_distance metric ->
  normed (distance_matrix metric data) = Fin D' ->
  exists m,
    Np.max (concat (distance_matrix metric data)) = Fin m /\ 0 < m
    /\ (forall i j,
          entry D' i j
          = (fun d => d / m) <$> entry (distance_matrix metric data) i j)
    /\ (forall i j z, entry D' i j = Some z -> entry D' j i = Some z)
    /\ (forall i, (i < length data)%nat -> entry D' i i = Some 0).
Proof.
  intros Hm HD'. pose proof Hm as (Hpos & Hsym & Hdiag).
  destruct (normalisation_positive data Hpos D' HD') as (a & b & Ha & Hb & Hab).
  destruct (distance_matrix_spec metric data Hm) as (_ & _ & HDsym & HDdiag & Hn).
  destruct Hn as (m & D'' & Hmax & Hm0 & HD'' & -> & _ & _); [eauto|].
  rewrite HD' in HD''. injection HD'' as ->.
  assert (Hentry : forall i j,
    entry (map (map (fun d => d / m)) (distance_matrix metric data)) i j
    = (fun d => d / m) <$> entry (distance_matrix metric data) i j).
  { intros i j. unfold entry. rewrite list_lookup_fmap.
    destruct (distance_matrix metric data !! i) as [row|]; [|done].
    cbn. by rewrite list_lookup_fmap. }
  exists m. split; [done|]. split; [done|]. split; [done|]. split.
  - intros i j z. rewrite !Hentry.
    destruct (entry (distance_matrix metric data) i j) as [d|] eqn:Hd; [|done].
    intros [= <-]. destruct (HDsym i j d Hd) as [_ ->]. done.
  - intros i Hi. rewrite Hentry, HDdiag by done. cbn. f_equal.
    unfold Rdiv. lra.
Qed.

End Normalisation.

Lemma normalisation_outcome_witness :
  normed (distance_matrix taxicab [(0%R, 0%R); (0%R, 0%R)])
  = Fault InvalidValue.
Proof.
  destruct (normalisation_outcome taxicab [(0%R, 0%R); (0%R, 0%R)])
    as (_ & Hzero & _).
  - apply taxicab_is_distance.
  - apply Hzero; [done|].
    intros a b [<-|[<-|[]]] [<-|[<-|[]]]; apply taxicab_is_distance.
Defined.

Lemma normed_entries_witness :
  exists D',
    normed (distance_matrix taxicab [(0%R, 0%R); (1%R, 0%R)]) = Fin D'
    /\ entry D' 1 1 = Some 0%R
    /\ entry D' 0 1 = entry D' 1 0.
Proof.
  destruct (distance_matrix_spec taxicab [(0%R, 0%R); (1%R, 0%R)]
              taxicab_is_distance) as (_ & _ & _ & _ & Hn).
  destruct Hn as (m & D' & _ & _ & HD' & _).
  { exists (0%R, 0%R), (1%R, 0%R). split; [by left|]. split; [by right; left|].
    rewrite taxicab_one_degree. lra. }
  destruct (normed_entries taxicab _ D' taxicab_is_distance HD')
    as (m' & _ & _ & _ & Hsym & Hdiag).
  exists D'. split; [done|]. split; [apply Hdiag; cbn; lia|].
  destruct (entry D' 0 1) as [z|] eqn:H01.
  - symmetry. by apply Hsym.
  - destruct (entry D' 1 0) as [z|] eqn:H10; [|done].
    apply Hsym in H10. congruence.
Defined.

(** ** The loops that fill the distance matrices *)

Section Loops.
Variable great_circle vincenty : coords -> coords -> R.

(** Overwriting slot [i] and moving the frontier one slot on. *)
Lemma overwrite_step {A} (l : list A) (i k : nat) (x : A) (rest : list A) :
  (i < length l)%nat ->
  take (S i) (<[i := x]> l) ++ rest ++ drop (S i + k) (<[i := x]> l)
  = take i l ++ (x :: rest) ++ drop (i + S k) l.
Proof.
  intros Hi. replace (S i + k)%nat with (i + S k)%nat by lia.
  rewrite (take_S_r _ _ x) by (by apply list_lookup_insert_eq).
  rewrite take_insert_ge by done. rewrite drop_insert_lt by lia.
  by rewrite <- app_assoc.
Qed.

Lemma set_entry_fin (a : list (list R)) i j x row :
  a !! i = Some row -> (j < length row)%nat ->
  set_entry a i j x = Fin (<[i := <[j := x]> row]> a).
Proof.
  intros Hrow Hj. unfold set_entry. rewrite Hrow. by rewrite decide_True.
Qed.

(** The inner loop over the columns from [j0] on, for row [i] and the city
    [c1] of that row. *)
Lemma inner_loop i c1 l : forall j0 G V rowG rowV,
  G !! i = Some rowG -> V !! i = Some rowV ->
  (j0 + length l <= length rowG)%nat -> (j0 + length l <= length rowV)%nat ->
  for_each (fun matrices j tmp_coords_2 =>
      let '(great_circle_distance, vincenty_distance) := matrices in
      great_circle_distance ←
        set_entry great_circle_distance i j (great_circle c1 tmp_coords_2);
      vincenty_distance ←
        set_entry vincenty_distance i j (vincenty c1 tmp_coords_2);
      Fin (great_circle_distance, vincenty_distance))
    j0 l (G, V)
  = Fin (<[i := take j0 rowG ++ map (great_circle c1) l
                  ++ drop (j0 + length l) rowG]> G,
         <[i := take j0 rowV ++ map (vincenty c1) l
                  ++ drop (j0 + length l) rowV]> V).
Proof.
  induction l as [|c2 l IH]; intros j0 G V rowG rowV HG HV HlG HlV.
  - cbn. rewrite !Nat.add_0_r, !take_drop. by rewrite !list_insert_id.
  - cbn [for_each length map]. cbn [length] in HlG, HlV.
    rewrite (set_entry_fin G i j0 _ rowG) by (done || lia). cbn.
    rewrite (set_entry_fin V i j0 _ rowV) by (done || lia). cbn.
    pose proof (lookup_lt_Some _ _ _ HG) as HiG.
    pose proof (lookup_lt_Some _ _ _ HV) as HiV.
    rewrite (IH (S j0) _ _ (<[j0 := great_circle c1 c2]> rowG)
                (<[j0 := vincenty c1 c2]> rowV));
      try (by apply list_lookup_insert_eq);
      try (rewrite length_insert; lia).
    rewrite !list_insert_insert_eq.
    by rewrite !overwrite_step by lia.
Qed.

(** The outer loop over the rows from [i0] on. *)
Lemma outer_loop data l : forall i0 G V,
  Forall (fun row => length row = length data) G ->
  Forall (fun row => length row = length data) V ->
  (i0 + length l <= length G)%nat -> (i0 + length l <= length V)%nat ->
  for_each (fun matrices i tmp_coords_1 =>
    for_each (fun matrices j tmp_coords_2 =>
      let '(great_circle_distance, vincenty_distance) := matrices in
      great_circle_distance ←
        set_entry great_circle_distance i j
          (great_circle tmp_coords_1 tmp_coords_2);
      vincenty_distance ←
        set_entry vincenty_distance i j (vincenty tmp_coords_1 tmp_coords_2);
      Fin (great_circle_distance, vincenty_distance))
      0 data matrices)
    i0 l (G, V)
  = Fin (take i0 G ++ map (fun c1 => map (great_circle c1) data) l
           ++ drop (i0 + length l) G,
         take i0 V ++ map (fun c1 => map (vincenty c1) data) l
           ++ drop (i0 + length l) V).
Proof.
  induction l as [|c1 l IH]; intros i0 G V HG HV HlG HlV.
  - cbn. by rewrite !Nat.add_0_r, !take_drop.
  - cbn [for_each length map]. cbn [length] in HlG, HlV.
    destruct (lookup_lt_is_Some_2 G i0) as [rowG HrowG]; [lia|].
    destruct (lookup_lt_is_Some_2 V i0) as [rowV HrowV]; [lia|].
    assert (HlenG : length rowG = length data).
    { rewrite Forall_forall in HG. by eapply HG, list_elem_of_lookup_2. }
    assert (HlenV : length rowV = length data).
    { rewrite Forall_forall in HV. by eapply HV, list_elem_of_lookup_2. }
    rewrite (inner_loop i0 c1 data 0 G V rowG rowV) by (done || lia).
    cbn [take Nat.add app].
    rewrite !drop_ge, !app_nil_r by lia. cbn.
    rewrite IH.
    + by rewrite !overwrite_step by lia.
    + apply Forall_insert; [done|]. apply length_map.
    + apply Forall_insert; [done|]. apply length_map.
    + rewrite length_insert. lia.
    + rewrite length_insert. lia.
Qed.

(** X13.  The two nested loops raise no IndexError and leave no zero of the
    initial matrices in place: they end with the two matrices of pairwise
    distances, entry [i, j] being the distance from row [i] to row [j] of
    the table. *)
Theorem loops_fill_distance_matrices (data : list coords) :
  compute_physical_distance_loops great_circle vincenty data
  = Fin (compute_physical_distance great_circle vincenty data).
Proof.
  unfold compute_physical_distance_loops, compute_physical_distance. cbn zeta.
  rewrite (outer_loop data data 0).
  - cbn [take Nat.add app]. unfold np_zeros.
    rewrite !drop_ge, !app_nil_r by (rewrite length_replicate; lia). done.
  - apply Forall_replicate. apply length_replicate.
  - apply Forall_replicate. apply length_replicate.
  - unfold np_zeros. rewrite length_replicate. lia.
  - unfold np_zeros. rewrite length_replicate. lia.
Qed.

End Loops.

(** ** How the aggregates of a city relate *)

Section Aggregates.
#[local] Open Scope R_scope.
#[local] Arguments Np.divide : simpl never.
#[local] Arguments Np.power : simpl never.

Lemma Rsum_scal_l {A} (c : R) (a : A -> R) l :
  Rsum (map (fun j => c * a j) l) = c * Rsum (map a l).
Proof.
  induction l as [|h l IH]; cbn [map]; [unfold Rsum; cbn; lra|].
  rewrite !Rsum_cons, IH. lra.
Qed.

Lemma Rsum_scal_r {A} (c : R) (a : A -> R) l :
  Rsum (map (fun j => a j * c) l) = Rsum (map a l) * c.
Proof.
  induction l as [|h l IH]; cbn [map]; [unfold Rsum; cbn; lra|].
  rewrite !Rsum_cons, IH. lra.
Qed.

(** X12.  Wherever, for every good, the revenue of a firm of city [h] and its
    labor demand have finite values: the exports of the city are its number
    of firms times the total revenue of a firm, the total cost of a firm is
    its total labor demand times the wage, and its total profit is total
    revenue less that cost. *)
Theorem aggregates_agree (n : nat) (v : env) (h : nat) (m w : R) :
  v_M v !! h = Some m -> v_W v !! h = Some w ->
  (forall j, (j < n)%nat ->
     finite (eval v (revenue (optimal_price h j)
                       (quantity_demand (optimal_price h j) j)))
     /\ finite (eval v (labor_demand
                          (quantity_demand (optimal_price h j) j) h j))) ->
  exists total_rev total_labor,
    eval v (total_revenue n h) = Fin total_rev
    /\ eval v (total_labor_demand n h) = Fin total_labor
    /\ eval v (total_exports n h) = Fin (m * total_rev)
    /\ eval v (total_cost n h) = Fin (total_labor * w)
    /\ eval v (total_profits n h) = Fin (total_rev - total_labor * w).
Proof.
  intros Hm Hw Hfin.
  set (rev := fun j => revenue (optimal_price h j)
                         (quantity_demand (optimal_price h j) j)).
  set (lab := fun j => labor_demand
                         (quantity_demand (optimal_price h j) j) h j).
  set (r := fun j => value (eval v (rev j))).
  set (l := fun j => value (eval v (lab j))).
  assert (Hr : forall j, (j < n)%nat -> eval v (rev j) = Fin (r j)).
  { intros j Hj. unfold r, rev. by destruct (proj1 (Hfin j Hj)) as [x ->]. }
  assert (Hl : forall j, (j < n)%nat -> eval v (lab j) = Fin (l j)).
  { intros j Hj. unfold l, lab. by destruct (proj2 (Hfin j Hj)) as [x ->]. }
  assert (Hrev : eval v (total_revenue n h)
                 = Fin (Rsum (map r (range n)))).
  { change (total_revenue n h) with (py_sum (map rev (range n))).
    by apply eval_py_sum. }
  assert (Hlab : eval v (total_labor_demand n h)
                 = Fin (Rsum (map l (range n)))).
  { change (total_labor_demand n h) with (py_sum (map lab (range n))).
    by apply eval_py_sum. }
  assert (Hcost : eval v (total_cost n h)
                  = Fin (Rsum (map l (range n)) * w)).
  { change (total_cost n h)
      with (py_sum (map (fun j => (lab j * nominal_wage h)%E) (range n))).
    rewrite (eval_py_sum v _ (fun j => l j * w)).
    - by rewrite Rsum_scal_r.
    - intros j Hj. cbn [eval]. by rewrite (Hl j Hj), Hw. }
  exists (Rsum (map r (range n))), (Rsum (map l (range n))).
  split; [done|]. split; [done|]. split; [|split; [done|]].
  - change (total_exports n h)
      with (py_sum (map (fun j => (number_firms h * rev j)%E) (range n))).
    rewrite (eval_py_sum v _ (fun j => m * r j)).
    + by rewrite Rsum_scal_l.
    + intros j Hj. cbn [eval]. by rewrite Hm, (Hr j Hj).
  - unfold total_profits. cbn [eval]. by rewrite Hrev, Hcost.
Qed.

End Aggregates.

Section AggregatesAtAPoint.
#[local] Open Scope R_scope.
#[local] Arguments Np.divide : simpl never.
#[local] Arguments Np.power : simpl never.

(** Revenue and labor demand on one good at a positive optimal price. *)
Lemma finite_revenue_and_labor v h j t w row d Pj Yj :
  v_theta v !! j = Some t -> v_W v !! h = Some w ->
  v_delta v !! h = Some row -> row !! j = Some d ->
  v_P v !! j = Some Pj -> v_Y v !! j = Some Yj ->
  t <> 1 -> d <> 0 -> v_phi v <> 0 -> 0 < Pj ->
  0 < t / (t - 1) * (w / (v_phi v / d)) ->
  finite (eval v (revenue (optimal_price h j)
                    (quantity_demand (optimal_price h j) j)))
  /\ finite (eval v (labor_demand
                       (quantity_demand (optimal_price h j) j) h j)).
Proof.
  intros Ht Hw Hrow Hd HP HY Ht1 Hd0 Hphi HP0 Hp0.
  pose proof (eval_optimal_price v h j t w row d Ht Hw Hrow Hd Ht1 Hd0 Hphi)
    as Hp.
  pose proof (eval_quantity_demand v (optimal_price h j) j _ t Pj Yj
                Hp Ht HP HY Hp0 HP0) as Hq.
  pose proof (eval_labor_productivity v h j row d Hrow Hd Hd0) as Ha.
  split.
  - unfold revenue.
    change (eval v (optimal_price h j
                    * quantity_demand (optimal_price h j) j)%E)
      with (p ← eval v (optimal_price h j);
            q ← eval v (quantity_demand (optimal_price h j) j);
            Fin (p * q)).
    rewrite Hp, Hq. by eexists.
  - unfold labor_demand.
    change (eval v (quantity_demand (optimal_price h j) j
                    / labor_productivity h j + f)%E)
      with (a ← (q ← eval v (quantity_demand (optimal_price h j) j);
                 b ← eval v (labor_productivity h j); Np.divide q b);
            c ← Fin (v_f v); Fin (a + c)).
    rewrite Hq, Ha. cbn. rewrite NpFacts.divide_fin.
    + by eexists.
    + intros Hz. apply Rmult_integral in Hz as [Hz|Hz]; [done|].
      by apply Rinv_neq_0_compat in Hz.
Qed.

End AggregatesAtAPoint.

Lemma aggregates_agree_witness :
  exists total_rev total_labor,
    eval two_city_point (total_exports 2 0) = Fin (1 * total_rev)%R
    /\ eval two_city_point (total_cost 2 0) = Fin (total_labor * 1)%R
    /\ eval two_city_point (total_profits 2 0)
       = Fin (total_rev - total_labor * 1)%R.
Proof.
  destruct (aggregates_agree 2 two_city_point 0 1%R 1%R)
    as (total_rev & total_labor & _ & _ & Hx & Hc & Hp).
  - reflexivity.
  - reflexivity.
  - intros j Hj. assert (Hj' : j = 0%nat \/ j = 1%nat) by lia.
    destruct Hj' as [-> | ->];
      apply (finite_revenue_and_labor two_city_point _ _ 2%R 1%R
               [1%R; 1%R] 1%R 1%R 1%R);
      cbn; first [reflexivity | lra].
  - by exists total_rev, total_labor.
Defined.
